(** * Flappy Kaho (game.js): a shallow embedding and its verified properties

    The embedding follows the richer of the two versions of the game script
    (the one with the parallax background and the score sound).  The module
    level [let] variables of the script become the fields of one [Game]
    record that every function takes and returns; host objects the script
    talks to (canvas size, the DOM nodes it toggles, localStorage, the audio
    context, pending timers) are fields of that record too.

    JavaScript numbers are kept abstract behind the interface [JSNumber]:
    the game functions are written once against it and run at two instances,
    exact rationals (executable, used for every concrete evaluation) and the
    real numbers (where [Math.sin] and [Math.PI] are the real ones).  Both
    idealise IEEE doubles: rounding is outside the model.

    After the game come the tiled layers of its background and, from the
    page scripts, the language detection (i18n.js), the avatar parallax
    (script.js), the carousel autoplay and the meteor timeouts. *)

From Stdlib Require Import String Ascii DecimalString Decimal DecimalPos DecimalZ.
From Stdlib Require Import ZArith QArith Qround Qabs Reals Bool List.
From Stdlib Require Import Lia Lra Lqa Qpower.
Import ListNotations.

Close Scope R_scope.
Close Scope Q_scope.

(** ** Numbers *)

Class JSNumber (num : Type) : Type := {
  lit : Q -> num;                 (* a numeric literal of the script *)
  add : num -> num -> num;
  sub : num -> num -> num;
  mul : num -> num -> num;
  div : num -> num -> num;
  ltb : num -> num -> bool;
  leb : num -> num -> bool;
  eqb : num -> num -> bool;
  Math_sin : num -> num;
  Math_floor : num -> num;
  Math_PI : num
}.

Arguments lit {num _} q%_Q.

Declare Scope js_scope.
Delimit Scope js_scope with js.
Infix "+" := add : js_scope.
Infix "-" := sub : js_scope.
Infix "*" := mul : js_scope.
Infix "/" := div : js_scope.
Infix "<?" := ltb : js_scope.
Infix "<=?" := leb : js_scope.
Notation "a >? b" := (ltb b a) : js_scope.
Notation "a >=? b" := (leb b a) : js_scope.

(** Exact rationals.  [Math.sin] has no rational counterpart, so the instance
    takes the function to use for it; [Math.PI] is the double the host
    exposes, 3.141592653589793, which is the rational below. *)
Definition Q_number (qsin : Q -> Q) : JSNumber Q := {|
  lit := fun q => q;
  add := Qplus;
  sub := Qminus;
  mul := Qmult;
  div := Qdiv;
  ltb := fun a b => negb (Qle_bool b a);
  leb := Qle_bool;
  eqb := Qeq_bool;
  Math_sin := qsin;
  Math_floor := fun q => inject_Z (Qfloor q);
  Math_PI := (884279719003555 # 281474976710656)%Q
|}.

Definition Rltb (a b : R) : bool := if Rlt_dec a b then true else false.
Definition Rleb (a b : R) : bool := if Rle_dec a b then true else false.
Definition Reqb (a b : R) : bool := if Req_dec_T a b then true else false.

(** Real numbers, with the real sine and pi. *)
Definition R_number : JSNumber R := {|
  lit := Q2R;
  add := Rplus;
  sub := Rminus;
  mul := Rmult;
  div := Rdiv;
  ltb := Rltb;
  leb := Rleb;
  eqb := Reqb;
  Math_sin := sin;
  Math_floor := fun r => IZR (up r - 1);
  Math_PI := PI
|}.

(** ** Integers read back from storage

    [parseInt] yields an integer or NaN; the best score is the only variable
    of the script that can hold NaN. *)
Inductive JSInt : Type :=
| NaN : JSInt
| Int : Z -> JSInt.

(** [score > bestScore] with the score an integer: false against NaN. *)
Definition js_gt (s : Z) (b : JSInt) : bool :=
  match b with
  | NaN => false
  | Int z => (z <? s)%Z
  end.

(** [Math.max] on such values, for stating what [gameOver] computes. *)
Definition Math_max (a b : JSInt) : JSInt :=
  match a, b with
  | Int x, Int y => Int (Z.max x y)
  | _, _ => NaN
  end.

(** *** parseInt (radix omitted), after ECMAScript 2015, 18.2.5

    Two simplifications: only the ASCII white space (tab to carriage return,
    and the space) is skipped, where the host also skips the Unicode space
    separators; and the digits are read into an exact integer, where the
    host rounds to a double from 2^53 on. *)

Definition isWhiteSpace (c : ascii) : bool :=
  let n := nat_of_ascii c in
  ((9 <=? n) && (n <=? 13))%nat || (n =? 32)%nat.

Fixpoint trimStart (s : string) : string :=
  match s with
  | String c r => if isWhiteSpace c then trimStart r else s
  | EmptyString => s
  end.

Definition digitValue (c : ascii) : option Z :=
  let n := Z.of_nat (nat_of_ascii c) in
  if ((48 <=? n) && (n <=? 57))%Z then Some (n - 48)%Z
  else if ((97 <=? n) && (n <=? 122))%Z then Some (n - 87)%Z
  else if ((65 <=? n) && (n <=? 90))%Z then Some (n - 55)%Z
  else None.

(** The longest prefix of digits of the radix, read left to right; [None] when
    that prefix is empty. *)
Fixpoint readDigits (radix : Z) (acc : option Z) (s : string) : option Z :=
  match s with
  | EmptyString => acc
  | String c r =>
      match digitValue c with
      | Some d =>
          if (d <? radix)%Z
          then readDigits radix
                 (Some (match acc with Some a => a * radix + d | None => d end)%Z) r
          else acc
      | None => acc
      end
  end.

Definition parseInt (input : string) : JSInt :=
  let s := trimStart input in
  let '(sign, s) :=
    match s with
    | String "-" r => ((-1)%Z, r)
    | String "+" r => (1%Z, r)
    | _ => (1%Z, s)
    end in
  let '(radix, s) :=
    match s with
    | String "0" (String "x" r) => (16%Z, r)
    | String "0" (String "X" r) => (16%Z, r)
    | _ => (10%Z, s)
    end in
  match readDigits radix None s with
  | None => NaN
  | Some m => Int (sign * m)
  end.

(** ** The state of the script *)

Inductive GameState : Type := READY | PLAYING | GAME_OVER.

(** The [state] attribute of an audio context. *)
Inductive AudioState : Type := suspended | running.

(** How a call ends: normally, or by an uncaught exception, in both cases
    with the state the script has reached. *)
Inductive Completion (A : Type) : Type :=
| Normal : A -> Completion A
| Throw : A -> Completion A.
Arguments Normal {A} _.
Arguments Throw {A} _.

Section Model.
Context {num : Type} {N : JSNumber num}.
Local Open Scope js_scope.

Record Bird : Type := {
  bird_x : num;
  bird_y : num;
  bird_velocity : num;
  bird_radius : num;
  bird_rotation : num
}.

Record Pipe : Type := {
  pipe_x : num;
  pipe_y : num;          (* top of the gap *)
  pipe_passed : bool
}.

Record BgOffsets : Type := {
  bg_clouds : num;
  bg_hills : num;
  bg_trees : num;
  bg_ground : num
}.

(** What the script reads and writes outside its own variables: the canvas
    backing size, the localStorage item flappyKahoBest, the two score texts,
    the hidden class of the overlay, the restart button and the reduced
    motion warning, and the timeouts of [playScoreSound] still pending. *)
Record Page : Type := {
  canvas_width : num;
  canvas_height : num;
  storage : option string;
  currentScoreText : Z;
  bestScoreText : JSInt;
  overlayHidden : bool;
  restartHidden : bool;
  warningHidden : bool;
  soundTimers : nat
}.

Record Game : Type := {
  state : GameState;
  frames : Z;
  lastTime : num;
  score : Z;
  bestScore : JSInt;
  pipes : list Pipe;
  bird : Bird;
  prefersReducedMotion : bool;
  motionOverride : bool;
  isTabActive : bool;
  dpr : num;
  spawnTimer : num;
  bgOffsets : BgOffsets;
  audioCtx : option AudioState;
  activeSounds : nat;
  page : Page
}.

(** Assignments to single fields. *)
Definition set_bird_y (v : _) (b : Bird) : Bird :=
  {| bird_x := bird_x b; bird_y := v; bird_velocity := bird_velocity b;
     bird_radius := bird_radius b; bird_rotation := bird_rotation b |}.
Definition set_bird_velocity (v : _) (b : Bird) : Bird :=
  {| bird_x := bird_x b; bird_y := bird_y b; bird_velocity := v;
     bird_radius := bird_radius b; bird_rotation := bird_rotation b |}.
Definition set_bird_rotation (v : _) (b : Bird) : Bird :=
  {| bird_x := bird_x b; bird_y := bird_y b;
     bird_velocity := bird_velocity b; bird_radius := bird_radius b;
     bird_rotation := v |}.
Definition set_canvas_width (v : _) (p : Page) : Page :=
  {| canvas_width := v; canvas_height := canvas_height p;
     storage := storage p; currentScoreText := currentScoreText p;
     bestScoreText := bestScoreText p; overlayHidden := overlayHidden p;
     restartHidden := restartHidden p; warningHidden := warningHidden p;
     soundTimers := soundTimers p |}.
Definition set_canvas_height (v : _) (p : Page) : Page :=
  {| canvas_width := canvas_width p; canvas_height := v;
     storage := storage p; currentScoreText := currentScoreText p;
     bestScoreText := bestScoreText p; overlayHidden := overlayHidden p;
     restartHidden := restartHidden p; warningHidden := warningHidden p;
     soundTimers := soundTimers p |}.
Definition set_storage (v : _) (p : Page) : Page :=
  {| canvas_width := canvas_width p; canvas_height := canvas_height p;
     storage := v; currentScoreText := currentScoreText p;
     bestScoreText := bestScoreText p; overlayHidden := overlayHidden p;
     restartHidden := restartHidden p; warningHidden := warningHidden p;
     soundTimers := soundTimers p |}.
Definition set_currentScoreText (v : _) (p : Page) : Page :=
  {| canvas_width := canvas_width p; canvas_height := canvas_height p;
     storage := storage p; currentScoreText := v;
     bestScoreText := bestScoreText p; overlayHidden := overlayHidden p;
     restartHidden := restartHidden p; warningHidden := warningHidden p;
     soundTimers := soundTimers p |}.
Definition set_bestScoreText (v : _) (p : Page) : Page :=
  {| canvas_width := canvas_width p; canvas_height := canvas_height p;
     storage := storage p; currentScoreText := currentScoreText p;
     bestScoreText := v; overlayHidden := overlayHidden p;
     restartHidden := restartHidden p; warningHidden := warningHidden p;
     soundTimers := soundTimers p |}.
Definition set_overlayHidden (v : _) (p : Page) : Page :=
  {| canvas_width := canvas_width p; canvas_height := canvas_height p;
     storage := storage p; currentScoreText := currentScoreText p;
     bestScoreText := bestScoreText p; overlayHidden := v;
     restartHidden := restartHidden p; warningHidden := warningHidden p;
     soundTimers := soundTimers p |}.
Definition set_restartHidden (v : _) (p : Page) : Page :=
  {| canvas_width := canvas_width p; canvas_height := canvas_height p;
     storage := storage p; currentScoreText := currentScoreText p;
     bestScoreText := bestScoreText p; overlayHidden := overlayHidden p;
     restartHidden := v; warningHidden := warningHidden p;
     soundTimers := soundTimers p |}.
Definition set_warningHidden (v : _) (p : Page) : Page :=
  {| canvas_width := canvas_width p; canvas_height := canvas_height p;
     storage := storage p; currentScoreText := currentScoreText p;
     bestScoreText := bestScoreText p; overlayHidden := overlayHidden p;
     restartHidden := restartHidden p; warningHidden := v;
     soundTimers := soundTimers p |}.
Definition set_soundTimers (v : _) (p : Page) : Page :=
  {| canvas_width := canvas_width p; canvas_height := canvas_height p;
     storage := storage p; currentScoreText := currentScoreText p;
     bestScoreText := bestScoreText p; overlayHidden := overlayHidden p;
     restartHidden := restartHidden p; warningHidden := warningHidden p;
     soundTimers := v |}.
Definition set_state (v : _) (g : Game) : Game :=
  {| state := v; frames := frames g; lastTime := lastTime g;
     score := score g; bestScore := bestScore g; pipes := pipes g;
     bird := bird g; prefersReducedMotion := prefersReducedMotion g;
     motionOverride := motionOverride g; isTabActive := isTabActive g;
     dpr := dpr g; spawnTimer := spawnTimer g; bgOffsets := bgOffsets g;
     audioCtx := audioCtx g; activeSounds := activeSounds g; page := page g |}.
Definition set_frames (v : _) (g : Game) : Game :=
  {| state := state g; frames := v; lastTime := lastTime g; score := score g;
     bestScore := bestScore g; pipes := pipes g; bird := bird g;
     prefersReducedMotion := prefersReducedMotion g;
     motionOverride := motionOverride g; isTabActive := isTabActive g;
     dpr := dpr g; spawnTimer := spawnTimer g; bgOffsets := bgOffsets g;
     audioCtx := audioCtx g; activeSounds := activeSounds g; page := page g |}.
Definition set_lastTime (v : _) (g : Game) : Game :=
  {| state := state g; frames := frames g; lastTime := v; score := score g;
     bestScore := bestScore g; pipes := pipes g; bird := bird g;
     prefersReducedMotion := prefersReducedMotion g;
     motionOverride := motionOverride g; isTabActive := isTabActive g;
     dpr := dpr g; spawnTimer := spawnTimer g; bgOffsets := bgOffsets g;
     audioCtx := audioCtx g; activeSounds := activeSounds g; page := page g |}.
Definition set_score (v : _) (g : Game) : Game :=
  {| state := state g; frames := frames g; lastTime := lastTime g;
     score := v; bestScore := bestScore g; pipes := pipes g; bird := bird g;
     prefersReducedMotion := prefersReducedMotion g;
     motionOverride := motionOverride g; isTabActive := isTabActive g;
     dpr := dpr g; spawnTimer := spawnTimer g; bgOffsets := bgOffsets g;
     audioCtx := audioCtx g; activeSounds := activeSounds g; page := page g |}.
Definition set_bestScore (v : _) (g : Game) : Game :=
  {| state := state g; frames := frames g; lastTime := lastTime g;
     score := score g; bestScore := v; pipes := pipes g; bird := bird g;
     prefersReducedMotion := prefersReducedMotion g;
     motionOverride := motionOverride g; isTabActive := isTabActive g;
     dpr := dpr g; spawnTimer := spawnTimer g; bgOffsets := bgOffsets g;
     audioCtx := audioCtx g; activeSounds := activeSounds g; page := page g |}.
Definition set_pipes (v : _) (g : Game) : Game :=
  {| state := state g; frames := frames g; lastTime := lastTime g;
     score := score g; bestScore := bestScore g; pipes := v; bird := bird g;
     prefersReducedMotion := prefersReducedMotion g;
     motionOverride := motionOverride g; isTabActive := isTabActive g;
     dpr := dpr g; spawnTimer := spawnTimer g; bgOffsets := bgOffsets g;
     audioCtx := audioCtx g; activeSounds := activeSounds g; page := page g |}.
Definition set_bird (v : _) (g : Game) : Game :=
  {| state := state g; frames := frames g; lastTime := lastTime g;
     score := score g; bestScore := bestScore g; pipes := pipes g; bird := v;
     prefersReducedMotion := prefersReducedMotion g;
     motionOverride := motionOverride g; isTabActive := isTabActive g;
     dpr := dpr g; spawnTimer := spawnTimer g; bgOffsets := bgOffsets g;
     audioCtx := audioCtx g; activeSounds := activeSounds g; page := page g |}.
Definition set_motionOverride (v : _) (g : Game) : Game :=
  {| state := state g; frames := frames g; lastTime := lastTime g;
     score := score g; bestScore := bestScore g; pipes := pipes g;
     bird := bird g; prefersReducedMotion := prefersReducedMotion g;
     motionOverride := v; isTabActive := isTabActive g; dpr := dpr g;
     spawnTimer := spawnTimer g; bgOffsets := bgOffsets g;
     audioCtx := audioCtx g; activeSounds := activeSounds g; page := page g |}.
Definition set_isTabActive (v : _) (g : Game) : Game :=
  {| state := state g; frames := frames g; lastTime := lastTime g;
     score := score g; bestScore := bestScore g; pipes := pipes g;
     bird := bird g; prefersReducedMotion := prefersReducedMotion g;
     motionOverride := motionOverride g; isTabActive := v; dpr := dpr g;
     spawnTimer := spawnTimer g; bgOffsets := bgOffsets g;
     audioCtx := audioCtx g; activeSounds := activeSounds g; page := page g |}.
Definition set_spawnTimer (v : _) (g : Game) : Game :=
  {| state := state g; frames := frames g; lastTime := lastTime g;
     score := score g; bestScore := bestScore g; pipes := pipes g;
     bird := bird g; prefersReducedMotion := prefersReducedMotion g;
     motionOverride := motionOverride g; isTabActive := isTabActive g;
     dpr := dpr g; spawnTimer := v; bgOffsets := bgOffsets g;
     audioCtx := audioCtx g; activeSounds := activeSounds g; page := page g |}.
Definition set_bgOffsets (v : _) (g : Game) : Game :=
  {| state := state g; frames := frames g; lastTime := lastTime g;
     score := score g; bestScore := bestScore g; pipes := pipes g;
     bird := bird g; prefersReducedMotion := prefersReducedMotion g;
     motionOverride := motionOverride g; isTabActive := isTabActive g;
     dpr := dpr g; spawnTimer := spawnTimer g; bgOffsets := v;
     audioCtx := audioCtx g; activeSounds := activeSounds g; page := page g |}.
Definition set_audioCtx (v : _) (g : Game) : Game :=
  {| state := state g; frames := frames g; lastTime := lastTime g;
     score := score g; bestScore := bestScore g; pipes := pipes g;
     bird := bird g; prefersReducedMotion := prefersReducedMotion g;
     motionOverride := motionOverride g; isTabActive := isTabActive g;
     dpr := dpr g; spawnTimer := spawnTimer g; bgOffsets := bgOffsets g;
     audioCtx := v; activeSounds := activeSounds g; page := page g |}.
Definition set_activeSounds (v : _) (g : Game) : Game :=
  {| state := state g; frames := frames g; lastTime := lastTime g;
     score := score g; bestScore := bestScore g; pipes := pipes g;
     bird := bird g; prefersReducedMotion := prefersReducedMotion g;
     motionOverride := motionOverride g; isTabActive := isTabActive g;
     dpr := dpr g; spawnTimer := spawnTimer g; bgOffsets := bgOffsets g;
     audioCtx := audioCtx g; activeSounds := v; page := page g |}.
Definition set_page (v : _) (g : Game) : Game :=
  {| state := state g; frames := frames g; lastTime := lastTime g;
     score := score g; bestScore := bestScore g; pipes := pipes g;
     bird := bird g; prefersReducedMotion := prefersReducedMotion g;
     motionOverride := motionOverride g; isTabActive := isTabActive g;
     dpr := dpr g; spawnTimer := spawnTimer g; bgOffsets := bgOffsets g;
     audioCtx := audioCtx g; activeSounds := activeSounds g; page := v |}.

Definition set_pipe_x (v : num) (p : Pipe) : Pipe :=
  {| pipe_x := v; pipe_y := pipe_y p; pipe_passed := pipe_passed p |}.
Definition set_pipe_passed (v : bool) (p : Pipe) : Pipe :=
  {| pipe_x := pipe_x p; pipe_y := pipe_y p; pipe_passed := v |}.

(** ** Game constants (the PHYSICS object) *)

Definition GRAVITY : num := lit 0.25.
Definition JUMP : num := lit (-4.6).
Definition PIPE_SPEED : num := lit 2.
Definition PIPE_SPAWN_RATE : num := lit 1800.
Definition PIPE_WIDTH : num := lit 52.
Definition PIPE_GAP : num := lit 130.
Definition BIRD_SIZE : num := lit 30.
Definition BIRD_X : num := lit 50.
Definition MAX_CONCURRENT_SOUNDS : nat := 3.

(** [String(n)] for an integer, as [localStorage.setItem] stores it: its
    decimal digits.  That is what the host prints for an integer below
    10^21 in absolute value (it turns to exponent notation from there on). *)
Definition toString (n : Z) : string := NilZero.string_of_int (Z.to_int n).

(** ** Sound *)

(** [playScoreSound]: after the two guards the counter is incremented and the
    audio context is dereferenced without a null check; on a null context
    the call throws there, before the timeout is set. *)
Definition playScoreSound (g : Game) : Completion Game :=
  if negb (isTabActive g) then Normal g
  else if (MAX_CONCURRENT_SOUNDS <=? activeSounds g)%nat then Normal g
  else
    let g := set_activeSounds (S (activeSounds g)) g in
    match audioCtx g with
    | None => Throw g
    | Some _ =>
        Normal (set_page (set_soundTimers (S (soundTimers (page g))) (page g)) g)
    end.

(** The callback of the timeout set by [playScoreSound]. *)
Definition soundTimeout (g : Game) : Game :=
  set_page (set_soundTimers (Nat.pred (soundTimers (page g))) (page g))
    (set_activeSounds (Nat.pred (activeSounds g)) g).

(** ** Pause, input, reset *)

Definition shouldPause (g : Game) : bool :=
  if negb (isTabActive g) then true
  else if prefersReducedMotion g && negb (motionOverride g) then true
  else false.

Definition resetGame (g : Game) : Game :=
  let g := set_state READY g in
  let g := set_bird (set_bird_y (lit 150) (bird g)) g in
  let g := set_bird (set_bird_velocity (lit 0) (bird g)) g in
  let g := set_bird (set_bird_rotation (lit 0) (bird g)) g in
  let g := set_score 0%Z g in
  let g := set_pipes [] g in
  let g := set_spawnTimer (lit 0) g in
  let g := set_frames 0%Z g in
  let g := set_page (set_currentScoreText 0%Z (page g)) g in
  let g := set_page (set_overlayHidden true (page g)) g in
  set_page (set_restartHidden true (page g)) g.

Definition restartGame (g : Game) : Game :=
  let g := resetGame g in
  let g := set_state PLAYING g in
  set_bird (set_bird_velocity JUMP (bird g)) g.

(** [handleInput], the one handler of mousedown, touchstart and the Space
    key.  The audio context is created on the first input that is not
    ignored (the constructor is taken to succeed and to give a running
    context), and resumed when it is suspended. *)
Definition handleInput (g : Game) : Game :=
  if shouldPause g then g
  else
    let g :=
      match audioCtx g with
      | None => set_audioCtx (Some running) g
      | Some suspended => set_audioCtx (Some running) g
      | Some running => g
      end in
    match state g with
    | READY => set_state PLAYING g
    | PLAYING => set_bird (set_bird_velocity JUMP (bird g)) g
    | GAME_OVER => restartGame g
    end.

(** ** Game over and collision *)

Definition updateBestScoreDisplay (g : Game) : Game :=
  set_page (set_bestScoreText (bestScore g) (page g)) g.

Definition gameOver (g : Game) : Game :=
  let g := set_state GAME_OVER g in
  let g :=
    if js_gt (score g) (bestScore g) then
      let g := set_bestScore (Int (score g)) g in
      let g := set_page (set_storage (Some (toString (score g))) (page g)) g in
      updateBestScoreDisplay g
    else g in
  let g := set_page (set_overlayHidden false (page g)) g in
  set_page (set_restartHidden false (page g)) g.

(** The shrunk hit box of the bird and the floor, as [checkCollision]
    computes them. *)
Definition birdLeft (g : Game) : num := bird_x (bird g) - bird_radius (bird g) + lit 4.
Definition birdRight (g : Game) : num := bird_x (bird g) + bird_radius (bird g) - lit 4.
Definition birdTop (g : Game) : num := bird_y (bird g) - bird_radius (bird g) + lit 4.
Definition birdBottom (g : Game) : num := bird_y (bird g) + bird_radius (bird g) - lit 4.
Definition floorY (g : Game) : num := canvas_height (page g) / dpr g.

(** The two nested tests of the loop body for one pipe. *)
Definition hitsPipe (g : Game) (pipe : Pipe) : bool :=
  let pipeLeft := pipe_x pipe in
  let pipeRight := pipe_x pipe + PIPE_WIDTH in
  let gapTop := pipe_y pipe in
  let gapBottom := pipe_y pipe + PIPE_GAP in
  if (birdRight g >? pipeLeft) && (birdLeft g <? pipeRight) then
    if (birdTop g <? gapTop) || (birdBottom g >? gapBottom) then true else false
  else false.

(** The [for ... of] loop over the pipes: whether it left through the
    [gameOver(); return] of its body, and how many pipes it looked at. *)
Fixpoint scanPipes (g : Game) (ps : list Pipe) : bool * nat :=
  match ps with
  | [] => (false, 0%nat)
  | pipe :: rest =>
      if hitsPipe g pipe then (true, 1%nat)
      else let (hit, n) := scanPipes g rest in (hit, S n)
  end.

Definition hitsBounds (g : Game) : bool :=
  (birdBottom g >=? floorY g) || (birdTop g <=? lit 0).

Definition checkCollision (g : Game) : Game :=
  if hitsBounds g then gameOver g
  else if fst (scanPipes g (pipes g)) then gameOver g
  else g.

(** The number of pipes one call of [checkCollision] examines. *)
Definition pipesExamined (g : Game) : nat :=
  if hitsBounds g then 0%nat else snd (scanPipes g (pipes g)).

(** ** Spawning and the update step *)

(** [spawnPipe]; [rnd] is the value [Math.random()] returns. *)
Definition spawnPipe (rnd : num) (g : Game) : Game :=
  let maxPos := canvas_height (page g) / dpr g - lit 50 - PIPE_GAP in
  let minPos := lit 50 in
  let gapY := Math_floor (rnd * (maxPos - minPos + lit 1)) + minPos in
  set_pipes
    (pipes g ++ [ {| pipe_x := canvas_width (page g) / dpr g;
                     pipe_y := gapY;
                     pipe_passed := false |} ]) g.

(** [if (dt > 100) dt = 16], the first statement of [update]. *)
Definition clampDt (dt : num) : num :=
  if dt >? lit 100 then lit 16 else dt.

Definition frameScaler (dt : num) : num := dt / (lit 1000 / lit 60).

(** The body of [pipes.forEach] for one pipe that is not yet counted:
    the pipe after its move, and whether the move makes it count. *)
Definition movePipe (scaler : num) (pipe : Pipe) : Pipe :=
  set_pipe_x (pipe_x pipe - PIPE_SPEED * scaler) pipe.

Definition nowPassed (birdX : num) (pipe : Pipe) : bool :=
  negb (pipe_passed pipe) && (pipe_x pipe + PIPE_WIDTH <? birdX).

(** [pipes.forEach(...)]: the pipes are objects mutated in place, so when
    [playScoreSound] throws the pipes already visited keep their changes and
    the remaining ones are untouched. *)
Fixpoint forEachPipe (scaler : num) (g : Game) (ps : list Pipe)
  : Completion Game * list Pipe :=
  match ps with
  | [] => (Normal g, [])
  | pipe :: rest =>
      let pipe := movePipe scaler pipe in
      if nowPassed (bird_x (bird g)) pipe then
        let g := set_score (score g + 1)%Z g in
        let pipe := set_pipe_passed true pipe in
        match playScoreSound g with
        | Throw g => (Throw g, pipe :: rest)
        | Normal g =>
            let g := set_page (set_currentScoreText (score g) (page g)) g in
            let (c, rest) := forEachPipe scaler g rest in
            (c, pipe :: rest)
        end
      else
        let (c, rest) := forEachPipe scaler g rest in
        (c, pipe :: rest)
  end.

(** Section 1 of the PLAYING branch: the bird. *)
Definition updateBird (scaler : num) (b : Bird) : Bird :=
  let b := set_bird_velocity (bird_velocity b + GRAVITY * scaler) b in
  let b := set_bird_y (bird_y b + bird_velocity b * scaler) b in
  if bird_velocity b <? lit 0 then
    set_bird_rotation (lit (-25) * Math_PI / lit 180) b
  else
    let b := set_bird_rotation
               (bird_rotation b + lit 2 * Math_PI / lit 180 * scaler) b in
    if bird_rotation b >? lit 90 * Math_PI / lit 180
    then set_bird_rotation (lit 90 * Math_PI / lit 180) b
    else b.

(** Section 2: the four parallax offsets. *)
Definition updateBackground (scaler : num) (o : BgOffsets) : BgOffsets :=
  {| bg_clouds := bg_clouds o + PIPE_SPEED * lit 0.3 * scaler;
     bg_hills := bg_hills o + PIPE_SPEED * lit 0.5 * scaler;
     bg_trees := bg_trees o + PIPE_SPEED * lit 0.8 * scaler;
     bg_ground := bg_ground o + PIPE_SPEED * scaler |}.

Definition onScreen (pipe : Pipe) : bool :=
  pipe_x pipe + PIPE_WIDTH >? lit (-10).

Definition update (dt rnd : num) (g : Game) : Completion Game :=
  let dt := clampDt dt in
  let scaler := frameScaler dt in
  match state g with
  | PLAYING =>
      let g := set_bird (updateBird scaler (bird g)) g in
      let g := set_bgOffsets (updateBackground scaler (bgOffsets g)) g in
      let g := set_spawnTimer (spawnTimer g + dt) g in
      let g :=
        if spawnTimer g >? PIPE_SPAWN_RATE
        then set_spawnTimer (lit 0) (spawnPipe rnd g)
        else g in
      match forEachPipe scaler g (pipes g) with
      | (Throw g, ps) => Throw (set_pipes ps g)
      | (Normal g, ps) =>
          let g := set_pipes ps g in
          let g := set_pipes (filter onScreen (pipes g)) g in
          Normal (checkCollision g)
      end
  | READY =>
      let g := set_frames (frames g + 1)%Z g in
      Normal
        (set_bird
           (set_bird_y
              (lit 150
               + Math_sin (lit (inject_Z (frames g)) * lit 0.05) * lit 5)
              (bird g)) g)
  | GAME_OVER => Normal g
  end.

(** [gameLoop]: drawing reads the state without changing it, and the next
    frame is requested only when [update] returns. *)
Definition gameLoop (timestamp rnd : num) (g : Game) : Completion Game :=
  if shouldPause g then Normal g
  else
    let dt := timestamp - lastTime g in
    let g := set_lastTime timestamp g in
    update dt rnd g.

(** ** The other listeners *)

(** Click on the button that overrides reduced motion. *)
Definition enableMotion (now : num) (g : Game) : Game :=
  let g := set_motionOverride true g in
  let g := set_page (set_warningHidden true (page g)) g in
  set_lastTime now g.

Definition visibilityChange (hidden : bool) (now : num) (g : Game) : Game :=
  let g := set_isTabActive (negb hidden) g in
  if isTabActive g && negb (shouldPause g) then set_lastTime now g else g.

(** [a || b] on numbers: [b] when [a] is zero. *)
Definition orElse (a b : num) : num := if eqb a (lit 0) then b else a.

(** [setupHiDPI], given the layout box of the canvas; the canvas attributes
    are taken to hold the products as they are (the host truncates them to
    whole numbers). *)
Definition setupHiDPI (rectWidth rectHeight : num) (g : Game) : Game :=
  let width := orElse rectWidth (lit 320) in
  let height := orElse rectHeight (lit 480) in
  let g := set_page (set_canvas_width (width * dpr g) (page g)) g in
  set_page (set_canvas_height (height * dpr g) (page g)) g.

(** ** Start-up *)

(** [parseInt(localStorage.getItem('flappyKahoBest') || '0')]: [getItem]
    gives null for an absent item, and null and the empty string are the two
    falsy values it can give. *)
Definition initBestScore (item : option string) : JSInt :=
  parseInt
    match item with
    | None => "0"
    | Some EmptyString => "0"
    | Some s => s
    end.

Definition initialBird : Bird :=
  {| bird_x := BIRD_X;
     bird_y := lit 150;
     bird_velocity := lit 0;
     bird_radius := BIRD_SIZE / lit 2;
     bird_rotation := lit 0 |}.

(** The state after the top-level declarations have run and [init] has
    returned.  The arguments are what the host provides: the reduced motion
    media query, [document.hidden], [devicePixelRatio], the layout box of the
    canvas, and the page as the markup and localStorage left it. *)
Definition init (reducedMotion hidden : bool)
  (devicePixelRatio rectWidth rectHeight : num) (markup : Page) : Game :=
  let g :=
    {| state := READY;
       frames := 0%Z;
       lastTime := lit 0;
       score := 0%Z;
       bestScore := initBestScore (storage markup);
       pipes := [];
       bird := initialBird;
       prefersReducedMotion := reducedMotion;
       motionOverride := false;
       isTabActive := negb hidden;
       dpr := orElse devicePixelRatio (lit 1);
       spawnTimer := lit 0;
       bgOffsets := {| bg_clouds := lit 0; bg_hills := lit 0;
                       bg_trees := lit 0; bg_ground := lit 0 |};
       audioCtx := None;
       activeSounds := 0%nat;
       page := markup |} in
  let g := setupHiDPI rectWidth rectHeight g in
  let g := updateBestScoreDisplay g in
  if prefersReducedMotion g && negb (motionOverride g)
  then set_page (set_warningHidden false (page g)) g
  else set_page (set_warningHidden true (page g)) g.

(** ** Events *)

Inductive Event : Type :=
| Frame (timestamp rnd : num)        (* an animation frame runs gameLoop *)
| PrimaryInput                       (* mousedown, touchstart or Space *)
| RestartClick                       (* click on the restart button *)
| EnableMotionClick (now : num)
| VisibilityChange (hidden : bool) (now : num)
| Resize (rectWidth rectHeight : num)
| SoundTimer.                        (* a timeout of playScoreSound fires *)

(** What the host can deliver: a button carrying the hidden class is not
    displayed and receives no click, and a timeout fires only if one is
    pending.  Frames are allowed at any time, which covers every way the
    script schedules them. *)
Definition enabled (e : Event) (g : Game) : bool :=
  match e with
  | RestartClick => negb (restartHidden (page g))
  | SoundTimer => (0 <? soundTimers (page g))%nat
  | _ => true
  end.

Definition step (e : Event) (g : Game) : Completion Game :=
  match e with
  | Frame timestamp rnd => gameLoop timestamp rnd g
  | PrimaryInput => Normal (handleInput g)
  | RestartClick => Normal (restartGame g)
  | EnableMotionClick now => Normal (enableMotion now g)
  | VisibilityChange hidden now => Normal (visibilityChange hidden now g)
  | Resize w h => Normal (setupHiDPI w h g)
  | SoundTimer => Normal (soundTimeout g)
  end.

(** The state a call leaves behind, however it ended. *)
Definition outcome {A : Type} (c : Completion A) : A :=
  match c with
  | Normal a => a
  | Throw a => a
  end.

Definition threw {A : Type} (c : Completion A) : bool :=
  match c with
  | Normal _ => false
  | Throw _ => true
  end.

(** States the page can be in, starting from [g0]: an uncaught exception
    ends the handler that raised it, not the page. *)
Inductive reachable (g0 : Game) : Game -> Prop :=
| reach_start : reachable g0 g0
| reach_step : forall g e,
    reachable g0 g -> enabled e g = true -> reachable g0 (outcome (step e g)).

(** A run of ticks of [update], each with its own elapsed time and random
    draw. *)
Fixpoint ticks (fs : list (num * num)) (g : Game) : Game :=
  match fs with
  | [] => g
  | (dt, rnd) :: rest => ticks rest (outcome (update dt rnd g))
  end.

(** The effect of one visit of [pipes.forEach] on the pipe itself. *)
Definition visitPipe (scaler birdX : num) (pipe : Pipe) : Pipe :=
  let pipe := movePipe scaler pipe in
  if nowPassed birdX pipe then set_pipe_passed true pipe else pipe.

(** How often the flag of one pipe goes from false to true over a run of
    ticks with the given frame scalers. *)
Fixpoint awards (birdX : num) (scalers : list num) (pipe : Pipe) : nat :=
  match scalers with
  | [] => 0%nat
  | s :: rest =>
      let pipe' := visitPipe s birdX pipe in
      ((if negb (pipe_passed pipe) && pipe_passed pipe' then 1 else 0)
       + awards birdX rest pipe')%nat
  end.

(** The number of pipes among [ps] that one visit turns from not counted to
    counted. *)
Definition newlyPassed (scaler birdX : num) (ps : list Pipe) : nat :=
  List.length (filter (fun pipe => nowPassed birdX (movePipe scaler pipe)) ps).

(** The fields that neither [playScoreSound] nor the loop over the pipes
    assigns. *)
Definition keeps (g g' : Game) : Prop :=
  state g' = state g /\ bird g' = bird g /\ audioCtx g' = audioCtx g
  /\ isTabActive g' = isTabActive g
  /\ restartHidden (page g') = restartHidden (page g)
  /\ bestScore g' = bestScore g /\ bgOffsets g' = bgOffsets g
  /\ frames g' = frames g.

(** Running a list of events, and whether each is enabled when its turn
    comes. *)
Fixpoint run (es : list Event) (g : Game) : Game :=
  match es with
  | [] => g
  | e :: rest => run rest (outcome (step e g))
  end.

Fixpoint allEnabled (es : list Event) (g : Game) : bool :=
  match es with
  | [] => true
  | e :: rest => enabled e g && allEnabled rest (outcome (step e g))
  end.

(** The bird never leaves its column and keeps its size. *)
Definition birdFixed (g : Game) : Prop :=
  bird_x (bird g) = BIRD_X /\ bird_radius (bird g) = BIRD_SIZE / lit 2.

(** As long as no audio context exists the game is still READY and the
    restart button still hidden. *)
Definition invariant (g : Game) : Prop :=
  audioCtx g = None -> state g = READY /\ restartHidden (page g) = true.

End Model.

Arguments Bird num : clear implicits.
Arguments Pipe num : clear implicits.
Arguments BgOffsets num : clear implicits.
Arguments Page num : clear implicits.
Arguments Game num : clear implicits.
Arguments Event num : clear implicits.

(** ** Concrete states for running the model *)

(** A rational stand-in for the sine, good to ten digits on [0, 1/2]; only
    the READY branch of [update] calls it. *)
Definition sin7 (x : Q) : Q :=
  (x - x * x * x / 6 + x * x * x * x * x / 120
   - x * x * x * x * x * x * x / 5040)%Q.

Definition QN : JSNumber Q := Q_number sin7.

(** A page whose markup hides overlay and restart button, with a stored
    best score of 5. *)
Definition demoMarkup : Page Q :=
  {| canvas_width := 0%Q; canvas_height := 0%Q;
     storage := Some "5"%string;
     currentScoreText := 0%Z; bestScoreText := Int 0;
     overlayHidden := true; restartHidden := true; warningHidden := true;
     soundTimers := 0%nat |}.

(** A 320 by 480 canvas at pixel ratio 1, tab visible, no reduced motion. *)
Definition demoStart : Game Q :=
  init (N := QN) false false 1%Q 320%Q 480%Q demoMarkup.

(** [demoStart] after the first input: playing, nothing spawned yet. *)
Definition demoPlaying : Game Q := handleInput (N := QN) demoStart.

(** A game in play with two pipes, the first one around the bird. *)
Definition demoPipes (birdY : Q) : Game Q :=
  let g := demoPlaying in
  set_bird (set_bird_y birdY (bird g))
    (set_pipes
       [ {| pipe_x := 40%Q; pipe_y := 100%Q; pipe_passed := false |};
         {| pipe_x := 250%Q; pipe_y := 200%Q; pipe_passed := false |} ] g).

(** The shortest way to a game over: start, shrink the canvas to one pixel
    of height, and let one frame run. *)
Definition toGameOver : list (Event Q) :=
  [PrimaryInput; Resize 320%Q 1%Q; Frame 16%Q 0%Q].

Definition demoGameOver : Game Q := run (N := QN) toGameOver demoStart.

(** The same with the tab hidden afterwards: game over and paused. *)
Definition demoGameOverHidden : Game Q :=
  run (N := QN) [VisibilityChange true 20%Q] demoGameOver.

(** Play on a canvas one pixel wide, with an input every fifth frame and
    frames 100 ms apart.  [toFirstPipe] stops after the 18th frame; in the
    19th the first pipe spawns, already left of the bird. *)
Fixpoint flaps (k : nat) (t : Q) : list (Event Q) :=
  match k with
  | O => []
  | S k =>
      [PrimaryInput;
       Frame (t + 100)%Q 0.1%Q; Frame (t + 200)%Q 0.1%Q; Frame (t + 300)%Q 0.1%Q;
       Frame (t + 400)%Q 0.1%Q; Frame (t + 500)%Q 0.1%Q] ++ flaps k (t + 500)%Q
  end.

Definition toFirstPipe : list (Event Q) :=
  [PrimaryInput; Resize 1%Q 480%Q] ++ firstn 22 (flaps 4 0%Q).

Definition demoBeforeScore : Game Q := run (N := QN) toFirstPipe demoStart.




(** The page of [demoMarkup] over the reals, with nothing stored. *)
Definition demoMarkupR : Page R :=
  {| canvas_width := 0%R; canvas_height := 0%R;
     storage := None;
     currentScoreText := 0%Z; bestScoreText := Int 0;
     overlayHidden := true; restartHidden := true; warningHidden := true;
     soundTimers := 0%nat |}.

Definition demoStartR : Game R :=
  init (N := R_number) false false 1%R 320%R 480%R demoMarkupR.

(** ** More of the game: invariants of the event handlers *)

(** The value [parseInt] reads from a string of decimal digits, most
    significant first, continuing from [acc]. *)
Fixpoint digitsValue (acc : Z) (d : Decimal.uint) : Z :=
  match d with
  | Decimal.Nil => acc
  | Decimal.D0 l => digitsValue (acc * 10 + 0) l
  | Decimal.D1 l => digitsValue (acc * 10 + 1) l
  | Decimal.D2 l => digitsValue (acc * 10 + 2) l
  | Decimal.D3 l => digitsValue (acc * 10 + 3) l
  | Decimal.D4 l => digitsValue (acc * 10 + 4) l
  | Decimal.D5 l => digitsValue (acc * 10 + 5) l
  | Decimal.D6 l => digitsValue (acc * 10 + 6) l
  | Decimal.D7 l => digitsValue (acc * 10 + 7) l
  | Decimal.D8 l => digitsValue (acc * 10 + 8) l
  | Decimal.D9 l => digitsValue (acc * 10 + 9) l
  end%Z.

Section MoreModel.
Context {num : Type} {N : JSNumber num}.
Local Open Scope js_scope.

(** The fields no tick assigns before its collision check. *)
Definition tickFrame (g g' : Game num) : Prop :=
  state g' = state g /\ frames g' = frames g /\ lastTime g' = lastTime g
  /\ bestScore g' = bestScore g
  /\ prefersReducedMotion g' = prefersReducedMotion g
  /\ motionOverride g' = motionOverride g
  /\ isTabActive g' = isTabActive g /\ dpr g' = dpr g
  /\ audioCtx g' = audioCtx g
  /\ canvas_width (page g') = canvas_width (page g)
  /\ canvas_height (page g') = canvas_height (page g)
  /\ storage (page g') = storage (page g)
  /\ bestScoreText (page g') = bestScoreText (page g)
  /\ overlayHidden (page g') = overlayHidden (page g)
  /\ restartHidden (page g') = restartHidden (page g)
  /\ warningHidden (page g') = warningHidden (page g).

(** The sound counter is within its cap and covers the pending timeouts. *)
Definition soundInv (g : Game num) : Prop :=
  (activeSounds g <= MAX_CONCURRENT_SOUNDS)%nat
  /\ (soundTimers (page g) <= activeSounds g)%nat.

Definition displayInv (g : Game num) : Prop :=
  currentScoreText (page g) = score g.

(** Overlay and restart button are shown together, and exactly when the
    game is over. *)
Definition overlayInv (g : Game num) : Prop :=
  overlayHidden (page g) = restartHidden (page g)
  /\ (restartHidden (page g) = false <-> state g = GAME_OVER).

(** Until the user overrides reduced motion nothing has happened yet. *)
Definition untouched (g : Game num) : Prop :=
  state g = READY /\ frames g = 0%Z /\ score g = 0%Z /\ pipes g = []
  /\ bird g = initialBird /\ audioCtx g = None.

(** Events as a browser delivers them: the layout box of the canvas has a
    width that is not negative. *)
Definition hostEvent (e : Event num) : bool :=
  match e with
  | Resize rectWidth _ => lit 0 <=? rectWidth
  | _ => true
  end.

(** No pipe whose right edge is left of the bird is still uncounted. *)
Definition flagsExact (g : Game num) : Prop :=
  Forall (fun pipe =>
            (pipe_x pipe + PIPE_WIDTH <? bird_x (bird g)) = true ->
            pipe_passed pipe = true)
         (pipes g).

(** The number of pipes whose flag is false in [before] and true at the same
    place in [after]. *)
Fixpoint transitions (before after : list (Pipe num)) : nat :=
  match before, after with
  | p :: before, p' :: after =>
      ((if negb (pipe_passed p) && pipe_passed p' then 1 else 0)
       + transitions before after)%nat
  | _, _ => 0%nat
  end.

End MoreModel.

Section FlagsInvariant.
Variable qsin : Q -> Q.
#[local] Hint Extern 0 (JSNumber Q) => exact (Q_number qsin) : typeclass_instances.
Local Open Scope Q_scope.

(** What the flags need of a state: the bird in its column, a positive
    pixel ratio, a canvas that is not of negative width, and no pipe behind
    the bird that is still uncounted. *)
Definition flagsInv (g : Game Q) : Prop :=
  bird_x (bird g) = 50 /\ 0 < dpr g /\ 0 <= canvas_width (page g)
  /\ flagsExact g.

End FlagsInvariant.

(** [demoBeforeScore] after the frame in which the first pipe spawns and is
    passed at once. *)
Definition demoAfterScore : Game Q :=
  outcome (step (N := QN) (Frame 1900%Q 0.1%Q) demoBeforeScore).

(** The start of [demoStart] for a user who prefers reduced motion, and the
    game after an input, a frame and a resize there. *)
Definition demoReduced : Game Q :=
  init (N := QN) true false 1%Q 320%Q 480%Q demoMarkup.

Definition demoReducedLater : Game Q :=
  run (N := QN) [PrimaryInput; Frame 16%Q 0%Q; Resize 320%Q 1%Q] demoReduced.

(** ** The ground band of the background (game.js) *)

(** [a % b] on numbers: the remainder has the sign of the dividend. *)
Definition truncate (q : Q) : Z :=
  if Qle_bool 0 q then Qfloor q else Qceiling q.

Definition jsRem (a b : Q) : Q := (a - b * inject_Z (truncate (a / b)))%Q.

(** The abscissa every layer computes for its tile [i]:
    [Math.floor((i * tileWidth - offset) % (w + tileWidth))]. *)
Definition tileX (i : nat) (tileWidth offset w : Q) : Q :=
  inject_Z
    (Qfloor (jsRem (inject_Z (Z.of_nat i) * tileWidth - offset) (w + tileWidth))).

(** [Math.ceil(w / tileWidth) + 2], the number of tiles drawn. *)
Definition tileCount (tileWidth w : Q) : nat :=
  Z.to_nat (Qceiling (w / tileWidth) + 2).

(** The abscissas the loop of a tiled layer computes, tile by tile. *)
Definition tileXs (tileWidth w offset : Q) : list Q :=
  map (fun i => tileX i tileWidth offset w) (seq 0 (tileCount tileWidth w)).

(** The loops of [drawClouds] (in the light theme), [drawHills] and
    [drawTrees], with tiles 60, 80 and 30 wide. *)
Definition cloudXs (w offset : Q) : list Q := tileXs 60 w offset.

Definition hillXs (w offset : Q) : list Q := tileXs 80 w offset.

Definition treeXs (w offset : Q) : list Q := tileXs 30 w offset.

(** A call of [fillRect], with the index of the ground colour in use. *)
Record Rect : Type := {
  rect_colour : nat;
  rect_x : Q; rect_y : Q; rect_w : Q; rect_h : Q
}.

(** [drawGround]: the band itself, then two stripes per tile. *)
Definition drawGround (w h offset : Q) : list Rect :=
  let groundHeight := 80%Q in
  let patternWidth := 40%Q in
  let numPatterns := tileCount patternWidth w in
  {| rect_colour := 0; rect_x := 0; rect_y := h - groundHeight;
     rect_w := w; rect_h := groundHeight |}%Q
  :: flat_map
       (fun i =>
          let x := tileX i patternWidth offset w in
          [ {| rect_colour := 1; rect_x := x; rect_y := h - groundHeight + 5;
               rect_w := inject_Z (Qfloor (patternWidth / 2)); rect_h := 10 |};
            {| rect_colour := 1;
               rect_x := x + inject_Z (Qfloor (patternWidth / 2));
               rect_y := h - groundHeight + 20;
               rect_w := inject_Z (Qfloor (patternWidth / 2)); rect_h := 8 |} ]%Q)
       (seq 0 numPatterns).

(** ** The language of the page (i18n.js) *)

(** [s.split('-')[0]]: the part of [s] before its first hyphen. *)
Fixpoint beforeHyphen (s : string) : string :=
  match s with
  | EmptyString => EmptyString
  | String c r => if Ascii.eqb c "-" then EmptyString else String c (beforeHyphen r)
  end.

(** [toLowerCase] on the letters A to Z; no other character lowers to one
    of the letters of zh, en and ja. *)
Definition lowerChar (c : ascii) : ascii :=
  let n := nat_of_ascii c in
  if ((65 <=? n) && (n <=? 90))%nat then ascii_of_nat (n + 32) else c.

Fixpoint toLowerCase (s : string) : string :=
  match s with
  | EmptyString => EmptyString
  | String c r => String (lowerChar c) (toLowerCase r)
  end.

Definition supported (prefix : string) : bool :=
  String.eqb prefix "zh" || String.eqb prefix "en" || String.eqb prefix "ja".

(** [detectLanguage], given [navigator.language] ([None] when undefined). *)
Definition detectLanguage (language : option string) : string :=
  let lang :=
    match language with
    | None => "zh"
    | Some EmptyString => "zh"
    | Some s => s
    end%string in
  let prefix := toLowerCase (beforeHyphen lang) in
  if supported prefix then prefix else "zh"%string.

(** ** The avatar parallax (script.js) *)

Record Parallax : Type := {
  mouseX : Q; mouseY : Q;
  currentX : Q; currentY : Q
}.

(** The mousemove listener. *)
Definition mouseMove (clientX clientY : Q) (p : Parallax) : Parallax :=
  {| mouseX := clientX; mouseY := clientY;
     currentX := currentX p; currentY := currentY p |}.

(** Where the avatar is drawn to: a fiftieth of the mouse's offset from the
    centre of the window. *)
Definition targetOf (mouse inner : Q) : Q := ((mouse - inner / 2) / 50)%Q.

(** [updateParallax]: one animation frame; the avatar is then translated by
    (currentX, currentY). *)
Definition updateParallax (innerWidth innerHeight : Q) (p : Parallax) : Parallax :=
  let centerX := (innerWidth / 2)%Q in
  let centerY := (innerHeight / 2)%Q in
  let targetX := ((mouseX p - centerX) / 50)%Q in
  let targetY := ((mouseY p - centerY) / 50)%Q in
  {| mouseX := mouseX p; mouseY := mouseY p;
     currentX := (currentX p + (targetX - currentX p) * 0.1)%Q;
     currentY := (currentY p + (targetY - currentY p) * 0.1)%Q |}.

Fixpoint parallaxFrames (n : nat) (innerWidth innerHeight : Q) (p : Parallax)
  : Parallax :=
  match n with
  | O => p
  | S n => parallaxFrames n innerWidth innerHeight
             (updateParallax innerWidth innerHeight p)
  end.

(** ** The carousel (the longer version of script.js) *)

(** The callback of the autoplay interval, for [slides] slides: the new
    index, which is also the slide scrolled to. *)
Definition autoplayTick (slides currentIndex : nat) : nat :=
  (currentIndex + 1) mod slides.

Fixpoint autoplayTicks (k slides currentIndex : nat) : nat :=
  match k with
  | O => currentIndex
  | S k => autoplayTicks k slides (autoplayTick slides currentIndex)
  end.

(** ** Meteors (the longer version of script.js) *)

(** [timerId] and [isPaused] are the variables of [initMeteors]; [pending]
    holds the ids of the timeouts set by [scheduleNextMeteor] that have
    neither fired nor been cleared, [nextId] is the id the next
    [setTimeout] returns, and [spawned] counts the calls of [spawnMeteor]. *)
Record Meteors : Type := {
  timerId : option nat;
  isPaused : bool;
  pending : list nat;
  nextId : nat;
  spawned : nat
}.

Definition clearNext (m : Meteors) : Meteors :=
  match timerId m with
  | Some id =>
      {| timerId := None; isPaused := isPaused m;
         pending := remove Nat.eq_dec id (pending m);
         nextId := nextId m; spawned := spawned m |}
  | None => m
  end.

Definition scheduleNextMeteor (m : Meteors) : Meteors :=
  let m := clearNext m in
  if isPaused m then m
  else
    {| timerId := Some (nextId m); isPaused := isPaused m;
       pending := nextId m :: pending m;
       nextId := S (nextId m); spawned := spawned m |}.

(** The timeout with the given id fires: a meteor is spawned and the next
    one scheduled. *)
Definition meteorTimeout (id : nat) (m : Meteors) : Meteors :=
  let m := {| timerId := timerId m; isPaused := isPaused m;
              pending := remove Nat.eq_dec id (pending m);
              nextId := nextId m; spawned := S (spawned m) |} in
  scheduleNextMeteor m.

(** The visibilitychange listener of [initMeteors]. *)
Definition meteorVisibility (hidden : bool) (m : Meteors) : Meteors :=
  let m := {| timerId := timerId m; isPaused := hidden;
              pending := pending m; nextId := nextId m;
              spawned := spawned m |} in
  if isPaused m then clearNext m else scheduleNextMeteor m.

(** [initMeteors] once it has found the container, given [document.hidden]
    and the first free timeout id. *)
Definition initMeteors (hidden : bool) (freeId : nat) : Meteors :=
  scheduleNextMeteor
    {| timerId := None; isPaused := hidden; pending := [];
       nextId := freeId; spawned := 0 |}.

Inductive MeteorEvent : Type :=
| TimeoutFires (id : nat)
| Visibility (hidden : bool).

Definition meteorStep (e : MeteorEvent) (m : Meteors) : Meteors :=
  match e with
  | TimeoutFires id => meteorTimeout id m
  | Visibility hidden => meteorVisibility hidden m
  end.

(** A timeout fires only while it is pending. *)
Definition meteorEnabled (e : MeteorEvent) (m : Meteors) : Prop :=
  match e with
  | TimeoutFires id => In id (pending m)
  | Visibility _ => True
  end.

Inductive meteorReachable (m0 : Meteors) : Meteors -> Prop :=
| meteor_start : meteorReachable m0 m0
| meteor_step : forall m e,
    meteorReachable m0 m -> meteorEnabled e m ->
    meteorReachable m0 (meteorStep e m).

(** The pending timeouts of the meteors. *)
Definition meteorInv (m : Meteors) : Prop :=
  (isPaused m = true -> pending m = [])
  /\ (isPaused m = false ->
      exists id, pending m = [id] /\ timerId m = Some id).

(** The meteors of a visible page after the first timeout has fired. *)
Definition demoMeteors : Meteors := meteorStep (TimeoutFires 0) (initMeteors false 0).

Section Properties.
Context {num : Type} {N : JSNumber num}.
Local Open Scope js_scope.
Implicit Types (g : Game num) (pipe : Pipe num) (b : Bird num).

(** *** Projections of the small functions *)

Lemma state_gameOver g : state (gameOver g) = GAME_OVER.
Proof. unfold gameOver; destruct (js_gt _ _); reflexivity. Qed.

Lemma bird_gameOver g : bird (gameOver g) = bird g.
Proof. unfold gameOver; destruct (js_gt _ _); reflexivity. Qed.

Lemma pipes_gameOver g : pipes (gameOver g) = pipes g.
Proof. unfold gameOver; destruct (js_gt _ _); reflexivity. Qed.

Lemma audioCtx_gameOver g : audioCtx (gameOver g) = audioCtx g.
Proof. unfold gameOver; destruct (js_gt _ _); reflexivity. Qed.

Lemma bgOffsets_gameOver g : bgOffsets (gameOver g) = bgOffsets g.
Proof. unfold gameOver; destruct (js_gt _ _); reflexivity. Qed.

Lemma score_gameOver g : score (gameOver g) = score g.
Proof. unfold gameOver; destruct (js_gt _ _); reflexivity. Qed.

Lemma restartHidden_gameOver g : restartHidden (page (gameOver g)) = false.
Proof. unfold gameOver; destruct (js_gt _ _); reflexivity. Qed.

Lemma bestScore_gameOver g :
  bestScore (gameOver g)
  = if js_gt (score g) (bestScore g) then Int (score g) else bestScore g.
Proof. unfold gameOver; destruct (js_gt _ _); reflexivity. Qed.

(** The guard of [handleInput]: while paused the input changes nothing. *)
Lemma handleInput_paused g : shouldPause g = true -> handleInput g = g.
Proof. intros Hp; unfold handleInput; now rewrite Hp. Qed.

(** *** Collision *)

Lemma hitsPipe_true g pipe :
  hitsPipe g pipe = true <->
  ((birdRight g >? pipe_x pipe) = true
   /\ (birdLeft g <? pipe_x pipe + PIPE_WIDTH) = true)
  /\ ((birdTop g <? pipe_y pipe) = true
      \/ (birdBottom g >? pipe_y pipe + PIPE_GAP) = true).
Proof.
  unfold hitsPipe.
  destruct (birdRight g >? pipe_x pipe), (birdLeft g <? pipe_x pipe + PIPE_WIDTH),
    (birdTop g <? pipe_y pipe), (birdBottom g >? pipe_y pipe + PIPE_GAP);
    simpl; intuition congruence.
Qed.

Lemma scanPipes_hit g ps :
  fst (scanPipes g ps) = true <-> exists pipe, In pipe ps /\ hitsPipe g pipe = true.
Proof.
  induction ps as [|p ps IH]; simpl.
  - split; [discriminate | intros (? & [] & _)].
  - destruct (hitsPipe g p) eqn:Hp; simpl.
    + split; [intros _; exists p; auto | reflexivity].
    + destruct (scanPipes g ps) as [hit n]; simpl in *.
      rewrite IH; split; intros (q & Hq & Hhit).
      * exists q; auto.
      * destruct Hq as [<- | Hq]; [congruence | exists q; auto].
Qed.

(** The loop looks at no pipe behind one that hits. *)
Lemma scanPipes_stops g ps i pipe :
  nth_error ps i = Some pipe -> hitsPipe g pipe = true ->
  (snd (scanPipes g ps) <= S i)%nat.
Proof.
  revert i; induction ps as [|p ps IH]; intros [|i] Hnth Hhit; simpl in *;
    try discriminate.
  - injection Hnth as ->; rewrite Hhit; simpl; lia.
  - destruct (hitsPipe g p); simpl; [lia|].
    specialize (IH i Hnth Hhit).
    destruct (scanPipes g ps) as [hit n]; simpl in *; lia.
Qed.

Lemma scanPipes_length g ps : (snd (scanPipes g ps) <= length ps)%nat.
Proof.
  induction ps as [|p ps IH]; simpl; [lia|].
  destruct (hitsPipe g p); simpl; [lia|].
  destruct (scanPipes g ps); simpl in *; lia.
Qed.

(** Every pipe the loop does look at, bar the last, did not hit. *)
Lemma scanPipes_before g ps i pipe :
  nth_error ps i = Some pipe -> (S i < snd (scanPipes g ps))%nat ->
  hitsPipe g pipe = false.
Proof.
  revert i; induction ps as [|p ps IH]; intros [|i] Hnth Hlt; simpl in *;
    try discriminate.
  - injection Hnth as ->. destruct (hitsPipe g pipe); [simpl in Hlt; lia | reflexivity].
  - destruct (hitsPipe g p); [simpl in Hlt; lia|].
    destruct (scanPipes g ps) as [hit n] eqn:E; simpl in *.
    apply (IH i Hnth); lia.
Qed.

(** C1. While the state is PLAYING, [checkCollision] moves the game to
    GAME_OVER exactly when the bird's box, shrunk by 4 on every side, has
    its bottom edge at or below the floor, or its top edge at or above the
    ceiling (<= 0), or some active pipe overlaps it horizontally while its
    top edge is above the gap's top or its bottom edge below the gap's
    bottom.  The bounds are tested first (a hit there examines no pipe), and
    the scan over the pipes stops at the first pipe that hits: no pipe
    behind a hitting one is examined. *)
Theorem C1_checkCollision_spec g :
  state g = PLAYING ->
  (state (checkCollision g) = GAME_OVER <->
     (birdBottom g >=? floorY g) = true
     \/ (birdTop g <=? lit 0) = true
     \/ exists pipe, In pipe (pipes g)
          /\ ((birdRight g >? pipe_x pipe) = true
              /\ (birdLeft g <? pipe_x pipe + PIPE_WIDTH) = true)
          /\ ((birdTop g <? pipe_y pipe) = true
              \/ (birdBottom g >? pipe_y pipe + PIPE_GAP) = true))
  /\ (hitsBounds g = true -> pipesExamined g = 0%nat)
  /\ (forall i pipe, nth_error (pipes g) i = Some pipe ->
        hitsPipe g pipe = true -> (pipesExamined g <= S i)%nat)
  /\ (checkCollision g = gameOver g \/ checkCollision g = g).
Proof.
  intros Hplay. unfold checkCollision, pipesExamined, hitsBounds.
  repeat split.
  - destruct (birdBottom g >=? floorY g) eqn:Hf; simpl; [auto|].
    destruct (birdTop g <=? lit 0) eqn:Hc; simpl; [auto|].
    destruct (fst (scanPipes g (pipes g))) eqn:Hs.
    + intros _. right; right. apply scanPipes_hit in Hs.
      destruct Hs as (p & Hin & Hhit). exists p. split; [exact Hin|].
      now apply hitsPipe_true.
    + rewrite Hplay; discriminate.
  - intros [Hf | [Hc | (p & Hin & Hhit)]].
    + rewrite Hf; simpl; apply state_gameOver.
    + rewrite Hc, orb_true_r; apply state_gameOver.
    + destruct (_ || _); [apply state_gameOver|].
      assert (Hs : fst (scanPipes g (pipes g)) = true).
      { apply scanPipes_hit. exists p. split; [exact Hin|]. now apply hitsPipe_true. }
      rewrite Hs; apply state_gameOver.
  - intros ->; reflexivity.
  - intros i p Hnth Hhit. destruct (_ || _); [lia|].
    now apply scanPipes_stops with (pipe := p).
  - destruct (_ || _); [auto|]. destruct (fst _); auto.
Qed.

(** *** Best score *)

(** C2. At every game over the best score becomes the maximum of the
    previous best score and the session score: it is replaced exactly when
    the session score is strictly greater, and otherwise left as it was, so
    it never decreases.  (A best score of NaN is left as it is, which is
    also what [Math.max] gives.) *)
Theorem C2_gameOver_bestScore g :
  bestScore (gameOver g) = Math_max (bestScore g) (Int (score g))
  /\ (forall best, bestScore g = Int best ->
        bestScore (gameOver g) = Int (Z.max best (score g))
        /\ (best <= Z.max best (score g))%Z
        /\ ((best < score g)%Z -> bestScore (gameOver g) = Int (score g))
        /\ ((score g <= best)%Z -> bestScore (gameOver g) = Int best))
  /\ (bestScore (gameOver g) <> bestScore g <-> js_gt (score g) (bestScore g) = true).
Proof.
  rewrite bestScore_gameOver. split; [|split].
  - destruct (bestScore g) as [|best]; simpl; [reflexivity|].
    destruct (Z.ltb_spec best (score g)); f_equal; lia.
  - intros best ->; simpl.
    destruct (Z.ltb_spec best (score g)); repeat split; intros;
      try (f_equal; lia); lia.
  - destruct (js_gt _ _) eqn:E.
    + split; [reflexivity | intros _].
      destruct (bestScore g) as [|best]; simpl in E; [discriminate|].
      apply Z.ltb_lt in E. intros [=]. lia.
    + split; [intros Hne; now elim Hne | discriminate].
Qed.

(** *** What a tick leaves alone *)

Lemma keeps_refl g : keeps g g.
Proof. repeat split. Qed.

Lemma keeps_trans g1 g2 g3 : keeps g1 g2 -> keeps g2 g3 -> keeps g1 g3.
Proof. unfold keeps; intuition congruence. Qed.

Lemma playScoreSound_keeps g :
  keeps g (outcome (playScoreSound g)) /\ score (outcome (playScoreSound g)) = score g.
Proof.
  unfold playScoreSound.
  destruct (negb (isTabActive g)); [split; [apply keeps_refl | reflexivity]|].
  destruct (MAX_CONCURRENT_SOUNDS <=? activeSounds g)%nat;
    [split; [apply keeps_refl | reflexivity]|].
  simpl. destruct (audioCtx g); simpl; repeat split.
Qed.

(** With an audio context at hand the sound routine returns. *)
Lemma playScoreSound_returns g :
  audioCtx g <> None -> threw (playScoreSound g) = false.
Proof.
  intros Ha. unfold playScoreSound.
  destruct (negb (isTabActive g)); [reflexivity|].
  destruct (MAX_CONCURRENT_SOUNDS <=? activeSounds g)%nat; [reflexivity|].
  simpl. destruct (audioCtx g); [reflexivity | congruence].
Qed.

(** [pipes.forEach] visits a prefix of the pipes (all of them unless the
    sound routine throws), changes each visited pipe as [visitPipe] says,
    and adds one to the score per pipe that became counted. *)
Lemma forEachPipe_spec scaler g ps :
  let c := fst (forEachPipe scaler g ps) in
  let ps' := snd (forEachPipe scaler g ps) in
  keeps g (outcome c)
  /\ exists k, (k <= List.length ps)%nat
       /\ (threw c = false -> k = List.length ps)
       /\ ps' = map (visitPipe scaler (bird_x (bird g))) (firstn k ps) ++ skipn k ps
       /\ score (outcome c)
          = (score g + Z.of_nat (newlyPassed scaler (bird_x (bird g)) (firstn k ps)))%Z.
Proof.
  revert g; induction ps as [|p ps IH]; intros g; simpl.
  - split; [apply keeps_refl|]. exists 0%nat; simpl. repeat split; lia.
  - unfold visitPipe, newlyPassed in *.
    destruct (nowPassed (bird_x (bird g)) (movePipe scaler p)) eqn:Hnow.
    + pose proof (playScoreSound_keeps (set_score (score g + 1) g)) as [Hk Hs].
      destruct (playScoreSound (set_score (score g + 1) g)) as [g1|g1] eqn:Hsound;
        simpl in Hk, Hs.
      * specialize (IH (set_page (set_currentScoreText (score g1) (page g1)) g1)).
        destruct (forEachPipe scaler _ ps) as [c ps'] eqn:Hrec; simpl in *.
        destruct IH as (Hk' & k & Hle & Hall & Hps & Hscore).
        assert (Hbx : bird_x (bird g1) = bird_x (bird g))
          by (destruct Hk as (_ & -> & _); reflexivity).
        split.
        { eapply keeps_trans; [exact Hk|].
          eapply keeps_trans; [|exact Hk']. repeat split. }
        exists (S k); simpl. rewrite Hnow; simpl.
        rewrite Hbx in Hps, Hscore.
        repeat split; [lia | intros Hc; f_equal; auto | now f_equal | ].
        rewrite Hscore, Hs; simpl. lia.
      * simpl. split; [exact Hk|].
        exists 1%nat; simpl. rewrite Hnow; simpl.
        repeat split; [lia | discriminate | ]. rewrite Hs; simpl; lia.
    + specialize (IH g).
      destruct (forEachPipe scaler g ps) as [c ps'] eqn:Hrec; simpl in *.
      destruct IH as (Hk' & k & Hle & Hall & Hps & Hscore).
      split; [exact Hk'|].
      exists (S k); simpl. rewrite Hnow; simpl.
      repeat split; [lia | intros Hc; f_equal; auto | now f_equal | exact Hscore].
Qed.

Lemma forEachPipe_returns scaler g ps :
  audioCtx g <> None -> threw (fst (forEachPipe scaler g ps)) = false.
Proof.
  revert g; induction ps as [|p ps IH]; intros g Ha; simpl; [reflexivity|].
  destruct (nowPassed _ _).
  - pose proof (playScoreSound_returns (set_score (score g + 1) g) Ha) as Hret.
    pose proof (playScoreSound_keeps (set_score (score g + 1) g)) as [Hk _].
    destruct (playScoreSound _) as [g1|g1]; simpl in *; [|discriminate].
    specialize (IH (set_page (set_currentScoreText (score g1) (page g1)) g1)).
    destruct (forEachPipe scaler _ ps) as [c ps']; simpl in *.
    apply IH. destruct Hk as (_ & _ & -> & _). exact Ha.
  - specialize (IH g Ha). destruct (forEachPipe scaler g ps); exact IH.
Qed.

(** *** One call of [update] *)

Lemma checkCollision_cases g :
  checkCollision g = gameOver g \/ checkCollision g = g.
Proof.
  unfold checkCollision. destruct (hitsBounds g); [auto|].
  destruct (fst _); auto.
Qed.

Lemma bird_x_updateBird scaler b : bird_x (updateBird scaler b) = bird_x b.
Proof.
  unfold updateBird; simpl.
  destruct (_ <? _); [reflexivity|]; simpl. destruct (_ <? _); reflexivity.
Qed.

Lemma bird_radius_updateBird scaler b :
  bird_radius (updateBird scaler b) = bird_radius b.
Proof.
  unfold updateBird; simpl.
  destruct (_ <? _); [reflexivity|]; simpl. destruct (_ <? _); reflexivity.
Qed.

Lemma update_READY dt rnd g :
  state g = READY ->
  update dt rnd g
  = Normal
      (set_bird
         (set_bird_y
            (lit 150 + Math_sin (lit (inject_Z (frames g + 1)) * lit 0.05) * lit 5)
            (bird g))
         (set_frames (frames g + 1)%Z g)).
Proof. intros H; unfold update; rewrite H; reflexivity. Qed.

Lemma update_GAME_OVER dt rnd g : state g = GAME_OVER -> update dt rnd g = Normal g.
Proof. intros H; unfold update; rewrite H; reflexivity. Qed.

(** A tick in play: the bird and the background move as sections 1 and 2
    say, at most one pipe is appended, every pipe is visited, the pipes
    left of the screen are dropped, and the collision check runs last.  The
    call can only end early inside the sound routine. *)
Lemma update_PLAYING dt rnd g :
  state g = PLAYING ->
  let scaler := frameScaler (clampDt dt) in
  let c := update dt rnd g in
  bird (outcome c) = updateBird scaler (bird g)
  /\ bgOffsets (outcome c) = updateBackground scaler (bgOffsets g)
  /\ audioCtx (outcome c) = audioCtx g
  /\ (state (outcome c) = PLAYING
         /\ restartHidden (page (outcome c)) = restartHidden (page g)
      \/ state (outcome c) = GAME_OVER)
  /\ (audioCtx g <> None -> threw c = false)
  /\ exists spawned, (List.length spawned <= 1)%nat
       /\ (threw c = false ->
           pipes (outcome c)
           = filter onScreen
               (map (visitPipe scaler (bird_x (bird g))) (pipes g ++ spawned))
           /\ score (outcome c)
              = (score g
                 + Z.of_nat (newlyPassed scaler (bird_x (bird g))
                               (pipes g ++ spawned)))%Z).
Proof.
  intros Hplay scaler c. subst c. unfold update. rewrite Hplay.
  fold scaler.
  set (g1 := set_spawnTimer _ (set_bgOffsets _ (set_bird _ g))).
  set (g2 := if spawnTimer g1 >? PIPE_SPAWN_RATE
             then set_spawnTimer (lit 0) (spawnPipe rnd g1) else g1).
  assert (H2 : state g2 = PLAYING /\ bird g2 = updateBird scaler (bird g)
               /\ bgOffsets g2 = updateBackground scaler (bgOffsets g)
               /\ audioCtx g2 = audioCtx g
               /\ restartHidden (page g2) = restartHidden (page g)
               /\ score g2 = score g
               /\ exists spawned, (List.length spawned <= 1)%nat
                    /\ pipes g2 = pipes g ++ spawned).
  { subst g2. destruct (_ <? _); simpl; repeat split; try exact Hplay.
    - eexists [_]; split; [simpl; lia | reflexivity].
    - exists []; split; [simpl; lia | now rewrite app_nil_r]. }
  destruct H2 as (Hs2 & Hb2 & Ho2 & Ha2 & Hr2 & Hsc2 & spawned & Hlen & Hp2).
  clearbody g2. clear g1.
  pose proof (forEachPipe_spec scaler g2 (pipes g2)) as Hloop.
  pose proof (forEachPipe_returns scaler g2 (pipes g2)) as Hret.
  destruct (forEachPipe scaler g2 (pipes g2)) as [c ps'].
  simpl in Hloop, Hret.
  destruct Hloop as ((Hs & Hb & Ha & _ & Hr & _ & Ho & _) & k & Hk & Hall & Hps & Hscore).
  rewrite Hb2, bird_x_updateBird in Hps, Hscore.
  destruct c as [g3|g3]; simpl in *.
  - set (g4 := set_pipes (filter onScreen _) _).
    assert (H4 : state g4 = PLAYING /\ bird g4 = bird g3 /\ bgOffsets g4 = bgOffsets g3
                 /\ audioCtx g4 = audioCtx g3 /\ page g4 = page g3
                 /\ score g4 = score g3 /\ pipes g4 = filter onScreen ps').
    { subst g4; simpl; repeat split; congruence. }
    destruct H4 as (Hs4 & Hb4 & Ho4 & Ha4 & Hpg4 & Hsc4 & Hp4). clearbody g4.
    assert (Hcc : checkCollision g4 = gameOver g4 \/ checkCollision g4 = g4)
      by apply checkCollision_cases.
    specialize (Hall eq_refl). subst k.
    rewrite firstn_all, skipn_all, app_nil_r in Hps.
    rewrite firstn_all in Hscore. rewrite Hp2 in Hps, Hscore.
    destruct Hcc as [-> | ->].
    + rewrite bird_gameOver, audioCtx_gameOver, state_gameOver, pipes_gameOver,
        bgOffsets_gameOver, score_gameOver.
      refine (conj _ (conj _ (conj _ (conj _ (conj _ _))))); try congruence.
      * now right.
      * exists spawned; split; [exact Hlen|]. intros _. split; congruence.
    + refine (conj _ (conj _ (conj _ (conj _ (conj _ _))))); try congruence.
      * left; split; congruence.
      * exists spawned; split; [exact Hlen|]. intros _. split; congruence.
  - refine (conj _ (conj _ (conj _ (conj _ (conj _ _))))); try congruence.
    + left; split; congruence.
    + intros Hctx. rewrite <- Ha2 in Hctx. specialize (Hret Hctx). discriminate.
    + exists spawned; split; [exact Hlen | discriminate].
Qed.

(** *** Reachable states *)


Lemma reachable_run (g0 g : Game num) es :
  reachable g0 g -> allEnabled es g = true -> reachable g0 (run es g).
Proof.
  revert g; induction es as [|e es IH]; intros g Hr Hen; simpl in *; [exact Hr|].
  apply andb_true_iff in Hen as [He Hes].
  apply IH; [now apply reach_step | exact Hes].
Qed.

Lemma invariant_init reducedMotion hidden devicePixelRatio w h (markup : Page num) :
  restartHidden markup = true ->
  invariant (init reducedMotion hidden devicePixelRatio w h markup).
Proof.
  intros Hm. unfold invariant, init; simpl.
  destruct (reducedMotion && _); simpl; intros _; (split; [reflexivity | exact Hm]).
Qed.

Lemma invariant_handleInput g : invariant g -> invariant (handleInput g).
Proof.
  intros Hinv. unfold handleInput. destruct (shouldPause g); [exact Hinv|].
  unfold invariant.
  destruct (audioCtx g) as [[|]|] eqn:E; destruct (state g) eqn:Hs; simpl;
    rewrite ?Hs, ?E; simpl; try discriminate.
Qed.

Lemma invariant_update dt rnd g : invariant g -> invariant (outcome (update dt rnd g)).
Proof.
  unfold invariant. intros Ha. destruct (state g) eqn:Hs.
  - rewrite update_READY by exact Hs. simpl. now rewrite Hs.
  - destruct (update_PLAYING dt rnd g Hs) as (_ & _ & Hctx & _).
    rewrite Hctx. intros Hnone. apply Ha in Hnone as [? _]. discriminate.
  - rewrite update_GAME_OVER by exact Hs. simpl. now rewrite Hs.
Qed.

Lemma invariant_step g e :
  invariant g -> enabled e g = true -> invariant (outcome (step e g)).
Proof.
  intros Hinv Hen. destruct e; simpl.
  - unfold gameLoop. destruct (shouldPause g); [exact Hinv|].
    apply invariant_update. exact Hinv.
  - now apply invariant_handleInput.
  - unfold invariant in *; simpl. intros Hnone.
    apply Hinv in Hnone as [_ Hh]. simpl in Hen. rewrite Hh in Hen. discriminate.
  - exact Hinv.
  - unfold visibilityChange; simpl. destruct (_ && _); exact Hinv.
  - exact Hinv.
  - exact Hinv.
Qed.

Lemma reachable_invariant (g0 g : Game num) :
  invariant g0 -> reachable g0 g -> invariant g.
Proof.
  intros H0 Hr. induction Hr as [|g e Hr IH Hen]; [exact H0|].
  now apply invariant_step.
Qed.

Lemma birdFixed_update dt rnd g : birdFixed g -> birdFixed (outcome (update dt rnd g)).
Proof.
  unfold birdFixed. intros [Hx Hr]. destruct (state g) eqn:Hs.
  - rewrite update_READY by exact Hs. simpl. now split.
  - destruct (update_PLAYING dt rnd g Hs) as (Hb & _).
    rewrite Hb, bird_x_updateBird, bird_radius_updateBird. now split.
  - rewrite update_GAME_OVER by exact Hs. now split.
Qed.

Lemma birdFixed_step g e : birdFixed g -> birdFixed (outcome (step e g)).
Proof.
  intros Hf. destruct e; simpl; try exact Hf.
  - unfold gameLoop. destruct (shouldPause g); [exact Hf|].
    now apply birdFixed_update.
  - unfold handleInput. destruct (shouldPause g); [exact Hf|].
    destruct (audioCtx g) as [[|]|]; destruct (state g) eqn:Hs; simpl;
      rewrite ?Hs; exact Hf.
  - unfold visibilityChange; simpl. destruct (_ && _); exact Hf.
Qed.

Lemma reachable_birdFixed (g0 g : Game num) :
  birdFixed g0 -> reachable g0 g -> birdFixed g.
Proof.
  intros H0 Hr. induction Hr as [|g e Hr IH Hen]; [exact H0|].
  now apply birdFixed_step.
Qed.

Lemma birdFixed_init reducedMotion hidden devicePixelRatio w h (markup : Page num) :
  birdFixed (init reducedMotion hidden devicePixelRatio w h markup).
Proof. unfold birdFixed, init; simpl. destruct (reducedMotion && _); now split. Qed.

(** *** Restart *)

Lemma restartGame_fields g :
  state (restartGame g) = PLAYING /\ score (restartGame g) = 0%Z
  /\ pipes (restartGame g) = [] /\ spawnTimer (restartGame g) = lit 0
  /\ frames (restartGame g) = 0%Z
  /\ bird (restartGame g)
     = {| bird_x := bird_x (bird g); bird_y := lit 150; bird_velocity := JUMP;
          bird_radius := bird_radius (bird g); bird_rotation := lit 0 |}.
Proof. repeat split. Qed.

Lemma handleInput_GAME_OVER g :
  shouldPause g = false -> state g = GAME_OVER ->
  exists g1, handleInput g = restartGame g1 /\ bird g1 = bird g.
Proof.
  intros Hp Hs. unfold handleInput. rewrite Hp.
  destruct (audioCtx g) as [[|]|]; simpl; rewrite Hs; eexists; split; reflexivity.
Qed.

(** C3. From GAME_OVER, a click on the restart button, and likewise a primary
    input that is not ignored for pause, resets the game and applies a jump:
    the state is PLAYING, the score 0, there are no pipes, spawn timer and
    frame counter are back at 0, the bird is at its initial position (50,
    150) with rotation 0 and its initial size, and its velocity is the jump
    constant -4.6, not the initial 0. *)
Theorem C3_restart_resets_and_jumps
  reducedMotion hidden devicePixelRatio w h (markup : Page num) g g' :
  reachable (init reducedMotion hidden devicePixelRatio w h markup) g ->
  state g = GAME_OVER ->
  g' = restartGame g \/ (shouldPause g = false /\ g' = handleInput g) ->
  state g' = PLAYING /\ score g' = 0%Z /\ pipes g' = []
  /\ spawnTimer g' = lit 0 /\ frames g' = 0%Z
  /\ bird_x (bird g') = lit 50 /\ bird_y (bird g') = lit 150
  /\ bird_rotation (bird g') = lit 0
  /\ bird_velocity (bird g') = lit (-4.6)
  /\ bird g' = set_bird_velocity JUMP initialBird.
Proof.
  intros Hreach Hs Hg'.
  destruct (reachable_birdFixed _ _ (birdFixed_init _ _ _ _ _ _) Hreach) as [Hx Hr].
  assert (Hb : exists g1, g' = restartGame g1 /\ bird g1 = bird g).
  { destruct Hg' as [-> | [Hp ->]].
    - exists g; split; reflexivity.
    - now apply handleInput_GAME_OVER. }
  destruct Hb as (g1 & -> & Hb1).
  destruct (restartGame_fields g1) as (H1 & H2 & H3 & H4 & H5 & H6).
  rewrite H6, Hb1, Hx, Hr. repeat split; assumption.
Qed.

(** *** The passed flag *)

Lemma visitPipe_passed scaler birdX pipe :
  pipe_passed (visitPipe scaler birdX pipe)
  = pipe_passed pipe
    || (pipe_x pipe - PIPE_SPEED * scaler + PIPE_WIDTH <? birdX).
Proof.
  unfold visitPipe, nowPassed, movePipe; simpl.
  destruct (pipe_passed pipe) eqn:Hp; simpl; [exact Hp|].
  destruct (_ <? _); simpl; [reflexivity | exact Hp].
Qed.

Lemma awards_passed birdX scalers pipe :
  pipe_passed pipe = true -> awards birdX scalers pipe = 0%nat.
Proof.
  revert pipe; induction scalers as [|s rest IH]; intros pipe Hp; simpl;
    [reflexivity|].
  rewrite Hp; simpl. apply IH. rewrite visitPipe_passed, Hp. reflexivity.
Qed.

(** One visit sets the passed flag of a pipe when the move brings the
    pipe's right edge left of the bird's abscissa, and only if it was not
    set before; a set flag stays set; over any run of visits it goes from
    false to true at most once; and a tick that returns has visited every
    pipe and added one to the score for each flag it set. *)
Lemma passed_flag_visits :
  (forall scaler birdX pipe,
      let pipe' := visitPipe scaler birdX pipe in
      pipe_x pipe' = pipe_x pipe - PIPE_SPEED * scaler
      /\ (pipe_passed pipe = true -> pipe_passed pipe' = true)
      /\ (pipe_passed pipe = false ->
          (pipe_passed pipe' = true <-> (pipe_x pipe' + PIPE_WIDTH <? birdX) = true)))
  /\ (forall birdX scalers pipe, (awards birdX scalers pipe <= 1)%nat)
  /\ (forall dt rnd g, state g = PLAYING ->
        let scaler := frameScaler (clampDt dt) in
        let c := update dt rnd g in
        exists spawned, (List.length spawned <= 1)%nat
          /\ (threw c = false ->
              pipes (outcome c)
              = filter onScreen
                  (map (visitPipe scaler (bird_x (bird g))) (pipes g ++ spawned))
              /\ score (outcome c)
                 = (score g
                    + Z.of_nat (newlyPassed scaler (bird_x (bird g))
                                  (pipes g ++ spawned)))%Z))
  /\ (forall scaler g ps,
        let r := forEachPipe scaler g ps in
        exists k, (k <= List.length ps)%nat
          /\ snd r = map (visitPipe scaler (bird_x (bird g))) (firstn k ps)
                     ++ skipn k ps
          /\ score (outcome (fst r))
             = (score g
                + Z.of_nat (newlyPassed scaler (bird_x (bird g)) (firstn k ps)))%Z).
Proof.
  split; [|split; [|split]].
  - intros scaler birdX pipe pipe'. subst pipe'.
    split; [|split].
    + unfold visitPipe. destruct (nowPassed _ _); reflexivity.
    + intros Hp. rewrite visitPipe_passed, Hp. reflexivity.
    + intros Hp. rewrite visitPipe_passed, Hp; simpl.
      assert (Hx : pipe_x (visitPipe scaler birdX pipe)
                   = pipe_x pipe - PIPE_SPEED * scaler)
        by (unfold visitPipe; destruct (nowPassed _ _); reflexivity).
      rewrite Hx. tauto.
  - intros birdX scalers. induction scalers as [|s rest IH]; intros pipe; simpl; [lia|].
    destruct (pipe_passed pipe) eqn:Hp; simpl; [apply IH|].
    destruct (pipe_passed (visitPipe s birdX pipe)) eqn:Hp'; simpl; [|apply IH].
    rewrite awards_passed by exact Hp'. lia.
  - intros dt rnd g Hplay scaler c.
    destruct (update_PLAYING dt rnd g Hplay) as (_ & _ & _ & _ & _ & H). exact H.
  - intros scaler g ps r.
    destruct (forEachPipe_spec scaler g ps) as (_ & k & Hk & _ & Hps & Hsc).
    exists k. repeat split; assumption.
Qed.

(** *** Ticks before play starts *)

(** READY ticks only count frames and overwrite the bird's ordinate with the
    bobbed value. *)
Lemma ticks_READY fs g :
  state g = READY ->
  let g' := ticks fs g in
  state g' = READY
  /\ shouldPause g' = shouldPause g
  /\ audioCtx g' = audioCtx g
  /\ bird_x (bird g') = bird_x (bird g)
  /\ bird_velocity (bird g') = bird_velocity (bird g)
  /\ bird_rotation (bird g') = bird_rotation (bird g)
  /\ bird_y (bird g')
     = match fs with
       | [] => bird_y (bird g)
       | _ => lit 150
              + Math_sin
                  (lit (inject_Z (frames g + Z.of_nat (List.length fs))) * lit 0.05)
                * lit 5
       end.
Proof.
  revert g; induction fs as [|[dt rnd] rest IH]; intros g Hs; simpl.
  - repeat split; assumption.
  - rewrite update_READY by exact Hs. simpl.
    set (g1 := set_bird _ _).
    destruct (IH g1 Hs) as (H1 & H2 & H3 & H4 & H5 & H6 & H7).
    repeat split; try assumption.
    rewrite H7. destruct rest as [|f rest]; simpl.
    + reflexivity.
    + match goal with
      | |- context [inject_Z ?a] =>
          match goal with
          | |- _ = ?rhs =>
              match rhs with
              | context [inject_Z ?b] => replace a with b by lia
              end
          end
      end.
      reflexivity.
Qed.

(** C9 (as the code has it).  Whatever the number n of READY ticks since
    start-up, at the moment an input starts play the state is PLAYING and the
    bird's abscissa, velocity and rotation have their initial values 50, 0
    and 0; its ordinate is the initial 150 only for n = 0, and otherwise the
    last bobbed value 150 + sin(n * 0.05) * 5, which play then starts from. *)
Theorem C9_play_starts_from_bobbed_position
  reducedMotion hidden devicePixelRatio w h (markup : Page num) fs :
  let g := ticks fs (init reducedMotion hidden devicePixelRatio w h markup) in
  shouldPause g = false ->
  let g' := handleInput g in
  state g' = PLAYING
  /\ bird_x (bird g') = lit 50
  /\ bird_velocity (bird g') = lit 0
  /\ bird_rotation (bird g') = lit 0
  /\ bird_y (bird g')
     = match fs with
       | [] => lit 150
       | _ => lit 150
              + Math_sin (lit (inject_Z (Z.of_nat (List.length fs))) * lit 0.05)
                * lit 5
       end.
Proof.
  intros g Hp g'.
  set (g0 := init reducedMotion hidden devicePixelRatio w h markup) in *.
  assert (H0 : state g0 = READY /\ frames g0 = 0%Z /\ bird g0 = initialBird).
  { subst g0. unfold init; simpl. destruct (reducedMotion && _); repeat split. }
  destruct H0 as (Hs0 & Hf0 & Hb0).
  destruct (ticks_READY fs g0 Hs0) as (Hs & _ & _ & Hx & Hv & Hr & Hy).
  fold g in Hs, Hx, Hv, Hr, Hy.
  rewrite Hb0, Hf0 in *. simpl in Hx, Hv, Hr, Hy.
  assert (Hg' : state g' = PLAYING /\ bird g' = bird g).
  { subst g'. unfold handleInput. rewrite Hp.
    destruct (audioCtx g) as [[|]|]; simpl; rewrite Hs; split; reflexivity. }
  destruct Hg' as [Hs' Hb']. rewrite Hb'.
  repeat split; assumption.
Qed.

(** *** The score sound *)

Lemma update_returns dt rnd g : invariant g -> threw (update dt rnd g) = false.
Proof.
  intros Hinv. destruct (state g) eqn:Hs.
  - now rewrite update_READY.
  - destruct (update_PLAYING dt rnd g Hs) as (_ & _ & _ & _ & Hret & _).
    apply Hret. intros Hnone. apply Hinv in Hnone as [? _]. congruence.
  - now rewrite update_GAME_OVER.
Qed.

(** When the restart button starts out hidden and is clicked only while it
    is displayed, every state the page reaches has an audio context unless
    the game is still READY; the sound routine then returns wherever a tick
    calls it, and no handler of an enabled event throws. *)
Lemma sound_has_context_when_restart_hidden
  reducedMotion hidden devicePixelRatio w h (markup : Page num) g :
  restartHidden markup = true ->
  reachable (init reducedMotion hidden devicePixelRatio w h markup) g ->
  (state g = READY \/ exists ctx, audioCtx g = Some ctx)
  /\ (forall g1, state g = PLAYING -> audioCtx g1 = audioCtx g ->
        threw (playScoreSound g1) = false)
  /\ (forall dt rnd, threw (update dt rnd g) = false)
  /\ (forall e, enabled e g = true -> threw (step e g) = false).
Proof.
  intros Hm Hreach.
  pose proof (reachable_invariant _ _ (invariant_init _ _ _ _ _ _ Hm) Hreach) as Hinv.
  split; [|split; [|split]].
  - destruct (audioCtx g) as [ctx|] eqn:E; [right; now exists ctx | left].
    now apply Hinv.
  - intros g1 Hs Ha. apply playScoreSound_returns. rewrite Ha.
    intros Hnone. apply Hinv in Hnone as [? _]. congruence.
  - intros dt rnd. now apply update_returns.
  - intros e He. destruct e; simpl; try reflexivity.
    unfold gameLoop. destruct (shouldPause g); [reflexivity|].
    apply update_returns. exact Hinv.
Qed.

End Properties.

(** ** Arithmetic of a tick, over the rationals *)

Section RationalArithmetic.
Variable qsin : Q -> Q.
#[local] Hint Extern 0 (JSNumber Q) => exact (Q_number qsin) : typeclass_instances.
Local Open Scope Q_scope.

Lemma Qltb_true (a b : Q) : ltb a b = true <-> a < b.
Proof.
  simpl. rewrite negb_true_iff. split.
  - intros H. apply Qnot_le_lt. intros Hle. apply Qle_bool_iff in Hle. congruence.
  - intros H. destruct (Qle_bool b a) eqn:E; [|reflexivity].
    apply Qle_bool_iff in E. lra.
Qed.

Lemma clampDt_cases (dt : Q) :
  (100 < dt /\ clampDt dt = 16) \/ (dt <= 100 /\ clampDt dt = dt).
Proof.
  unfold clampDt. destruct (ltb (lit 100) dt) eqn:E.
  - left. split; [now apply Qltb_true | reflexivity].
  - right. split; [|reflexivity].
    apply Qnot_lt_le. intros H. apply Qltb_true in H. simpl in *. congruence.
Qed.

Lemma frameScaler_eq (dt : Q) : frameScaler dt == dt * (3 # 50).
Proof. unfold frameScaler; simpl. field. Qed.

Lemma frameScaler_clamped (dt : Q) :
  0 <= dt -> 0 <= frameScaler (clampDt dt) <= 6.
Proof.
  intros Hdt. rewrite frameScaler_eq.
  destruct (clampDt_cases dt) as [[_ ->] | [Hle ->]]; lra.
Qed.

Lemma updateBird_velocity s (b : Bird Q) :
  bird_velocity (updateBird s b) = bird_velocity b + 0.25 * s.
Proof.
  unfold updateBird; simpl. destruct (negb _); [reflexivity|].
  simpl. destruct (negb _); reflexivity.
Qed.

Lemma updateBird_y s (b : Bird Q) :
  bird_y (updateBird s b) = bird_y b + bird_velocity (updateBird s b) * s.
Proof.
  unfold updateBird; simpl. destruct (negb _); [reflexivity|].
  simpl. destruct (negb _); reflexivity.
Qed.

(** C5. For every dt >= 0 the step [update] integrates with is 16 when dt
    exceeds 100 and dt itself otherwise, so the frame scaler lies in [0, 6];
    in a PLAYING tick the velocity then grows by 0.25 * scaler, at most 1.5,
    and the ordinate moves by the new velocity times the scaler, at most six
    times the new speed. *)
Theorem C5_clamped_step (dt : Q) :
  0 <= dt ->
  (100 < dt -> clampDt dt = 16)
  /\ (dt <= 100 -> clampDt dt = dt)
  /\ 0 <= frameScaler (clampDt dt) <= 6
  /\ (forall rnd g, state g = PLAYING ->
        let s := frameScaler (clampDt dt) in
        let b' := bird (outcome (update dt rnd g)) in
        b' = updateBird s (bird g)
        /\ bird_velocity b' - bird_velocity (bird g) == 0.25 * s
        /\ 0 <= bird_velocity b' - bird_velocity (bird g) <= 1.5
        /\ bird_y b' - bird_y (bird g) == bird_velocity b' * s
        /\ Qabs (bird_y b' - bird_y (bird g)) <= 6 * Qabs (bird_velocity b')).
Proof.
  intros Hdt. pose proof (frameScaler_clamped dt Hdt) as [Hs0 Hs6].
  split; [|split; [|split; [split; assumption|]]].
  - intros Hgt. destruct (clampDt_cases dt) as [[_ E] | [Hle _]]; [exact E | lra].
  - intros Hle. destruct (clampDt_cases dt) as [[Hgt _] | [_ E]]; [lra | exact E].
  - intros rnd g Hplay s b'. subst b'.
    destruct (update_PLAYING dt rnd g Hplay) as (Hb & _). fold s in Hb.
    rewrite Hb. fold s in Hs0, Hs6.
    split; [reflexivity|].
    rewrite updateBird_y, updateBird_velocity.
    split; [ring|]. split; [split; lra|]. split; [ring|].
    setoid_replace
      (bird_y (bird g) + (bird_velocity (bird g) + 0.25 * s) * s - bird_y (bird g))
      with ((bird_velocity (bird g) + 0.25 * s) * s) by ring.
    rewrite Qabs_Qmult, (Qabs_pos s) by exact Hs0.
    rewrite (Qmult_comm 6). apply Qmult_le_compat_nonneg.
    + split; [apply Qabs_nonneg | apply Qle_refl].
    + split; assumption.
Qed.

(** C8 (as the code has it).  In a PLAYING tick with positive elapsed time
    the clouds advance less than the hills, the hills less than the trees
    and the trees less than the ground; the ground advances by PIPE_SPEED
    times the scaler, which is exactly how far every pipe moves: the ground
    keeps pace with the pipes, it is not slower. *)
Theorem C8_parallax_order (dt rnd : Q) (g : Game Q) :
  state g = PLAYING -> 0 < dt ->
  let s := frameScaler (clampDt dt) in
  let o := bgOffsets g in
  let o' := bgOffsets (outcome (update dt rnd g)) in
  bg_clouds o' - bg_clouds o < bg_hills o' - bg_hills o
  /\ bg_hills o' - bg_hills o < bg_trees o' - bg_trees o
  /\ bg_trees o' - bg_trees o < bg_ground o' - bg_ground o
  /\ bg_ground o' - bg_ground o == PIPE_SPEED * s
  /\ (forall pipe,
        pipe_x pipe - pipe_x (visitPipe s (bird_x (bird g)) pipe)
        == bg_ground o' - bg_ground o)
  /\ 0 < PIPE_SPEED * s.
Proof.
  intros Hplay Hdt s o o'. subst o o'.
  destruct (update_PLAYING dt rnd g Hplay) as (_ & Ho & _). fold s in Ho.
  rewrite Ho. unfold updateBackground; simpl.
  assert (Hs : 0 < s).
  { subst s. rewrite frameScaler_eq.
    destruct (clampDt_cases dt) as [[_ ->] | [_ ->]]; lra. }
  assert (Hx : forall pipe,
             pipe_x (visitPipe s (bird_x (bird g)) pipe) = pipe_x pipe - 2 * s).
  { intros pipe. unfold visitPipe. destruct (nowPassed _ _); reflexivity. }
  repeat split; try lra.
  intros pipe. rewrite Hx. ring.
Qed.

End RationalArithmetic.

(** ** Runs of the model on concrete pages *)

Section Runs.
#[local] Existing Instance QN.
Local Open Scope Q_scope.



Lemma reachable_demoGameOver : reachable demoStart demoGameOver.
Proof. apply reachable_run; [apply reach_start | vm_compute; reflexivity]. Qed.

Lemma reachable_demoGameOverHidden : reachable demoStart demoGameOverHidden.
Proof.
  apply reachable_run; [apply reachable_demoGameOver | vm_compute; reflexivity].
Qed.

Lemma reachable_demoBeforeScore : reachable demoStart demoBeforeScore.
Proof. apply reachable_run; [apply reach_start | vm_compute; reflexivity]. Qed.

(** C4, the restart button.  With the game over and the tab hidden the game
    is paused and a primary input changes nothing, but the listener of the
    restart button is [restartGame] itself, which does not look at the
    pause: the click starts a new game. *)
Theorem C4_restart_click_ignores_pause :
  reachable demoStart demoGameOverHidden
  /\ state demoGameOverHidden = GAME_OVER
  /\ shouldPause demoGameOverHidden = true
  /\ enabled RestartClick demoGameOverHidden = true
  /\ handleInput demoGameOverHidden = demoGameOverHidden
  /\ state (outcome (step RestartClick demoGameOverHidden)) = PLAYING
  /\ bird_velocity (bird (outcome (step RestartClick demoGameOverHidden))) = -4.6
  /\ restartHidden (page (outcome (step RestartClick demoGameOverHidden))) = true.
Proof.
  split; [exact reachable_demoGameOverHidden|].
  repeat split; vm_compute; reflexivity.
Qed.

(** Which items are read as NaN: those whose first character is an ASCII
    character that is neither white space, nor a sign, nor a decimal
    digit. *)
Lemma parseInt_no_leading_digit (c : ascii) (s : string) :
  (nat_of_ascii c <? 128)%nat = true ->
  isWhiteSpace c = false -> c <> "-"%char -> c <> "+"%char ->
  match digitValue c with Some d => (10 <=? d)%Z | None => true end = true ->
  parseInt (String c s) = NaN.
Proof.
  destruct c as [[] [] [] [] [] [] [] []]; intros Ha Hw Hm Hp Hd;
    try discriminate; try congruence; reflexivity.
Qed.

(** C7, the malformed item.  An absent or empty item is read as 0, but an
    item that holds no leading integer is read as NaN: the best score in
    memory and on display is NaN, and no later game over replaces it. *)
Theorem C7_malformed_item_gives_NaN :
  initBestScore None = Int 0
  /\ initBestScore (Some ""%string) = Int 0
  /\ initBestScore (Some "abc"%string) = NaN
  /\ bestScore (init false false 1 320 480 (set_storage (Some "abc"%string) demoMarkup))
     = NaN
  /\ bestScoreText
       (page (init false false 1 320 480 (set_storage (Some "abc"%string) demoMarkup)))
     = NaN
  /\ bestScore
       (gameOver
          (set_score 7%Z
             (init false false 1 320 480 (set_storage (Some "abc"%string) demoMarkup))))
     = NaN.
Proof. repeat split; vm_compute; reflexivity. Qed.

(** C8, the ground.  In a 16 ms tick of a game with two pipes the ground
    offset advances by 48/25, and so does each pipe move; and in a tick with
    no time elapsed no layer advances at all. *)
Lemma C8_ground_as_fast_as_pipes :
  state (demoPipes 150) = PLAYING
  /\ Qred (bg_ground (bgOffsets (outcome (update 16 0 (demoPipes 150))))
           - bg_ground (bgOffsets (demoPipes 150)))
     = 48 # 25
  /\ map (fun pp => Qred (pipe_x (fst pp) - pipe_x (snd pp)))
       (combine (pipes (demoPipes 150))
          (pipes (outcome (update 16 0 (demoPipes 150)))))
     = [48 # 25; 48 # 25]
  /\ Qred (bg_clouds (bgOffsets (outcome (update 0 0 (demoPipes 150))))
           - bg_clouds (bgOffsets (demoPipes 150)))
     = 0
  /\ Qred (bg_ground (bgOffsets (outcome (update 0 0 (demoPipes 150))))
           - bg_ground (bgOffsets (demoPipes 150)))
     = 0.
Proof. repeat split; vm_compute; reflexivity. Qed.


Lemma C1_witness :
  state (demoPipes 105) = PLAYING
  /\ state (checkCollision (demoPipes 105)) = GAME_OVER
  /\ pipesExamined (demoPipes 105) = 1%nat.
Proof.
  split; [reflexivity|]. split; [|reflexivity].
  apply (proj1 (C1_checkCollision_spec (demoPipes 105) eq_refl)).
  right; right.
  exists {| pipe_x := 40; pipe_y := 100; pipe_passed := false |}.
  split; [left; reflexivity|]. split; [split; reflexivity|]. left; reflexivity.
Defined.

Lemma C3_witness :
  state demoGameOver = GAME_OVER
  /\ shouldPause demoGameOver = false
  /\ state (handleInput demoGameOver) = PLAYING
  /\ bird (handleInput demoGameOver) = set_bird_velocity JUMP initialBird
  /\ bird_velocity (set_bird_velocity JUMP initialBird) < 0.
Proof.
  split; [reflexivity|]. split; [reflexivity|].
  pose proof (C3_restart_resets_and_jumps false false 1 320 480 demoMarkup
                demoGameOver (handleInput demoGameOver)
                reachable_demoGameOver eq_refl
                (or_intror (conj eq_refl eq_refl))) as H.
  split; [apply H|]. split; [apply H | reflexivity].
Defined.

Lemma C5_witness :
  0 <= 250 /\ clampDt (N := Q_number sin7) 250 = 16
  /\ 0 <= frameScaler (N := Q_number sin7) (clampDt (N := Q_number sin7) 250) <= 6.
Proof.
  split; [discriminate|].
  pose proof (C5_clamped_step sin7 250 ltac:(discriminate)) as (H1 & _ & H3 & _).
  split; [apply H1; reflexivity | exact H3].
Defined.

Lemma C8_witness :
  bg_trees (bgOffsets (outcome (update (N := Q_number sin7) 16 0 (demoPipes 150))))
  - bg_trees (bgOffsets (demoPipes 150))
  < bg_ground (bgOffsets (outcome (update (N := Q_number sin7) 16 0 (demoPipes 150))))
    - bg_ground (bgOffsets (demoPipes 150)).
Proof.
  apply (C8_parallax_order sin7 16 0 (demoPipes 150) eq_refl ltac:(reflexivity)).
Defined.

Lemma C9_witness :
  shouldPause (ticks [(16, 0); (16, 0)] demoStart) = false
  /\ bird_y (bird (handleInput (ticks [(16, 0); (16, 0)] demoStart)))
     = (lit 150 + Math_sin (lit (inject_Z 2) * lit 0.05) * lit 5)%js.
Proof.
  split; [vm_compute; reflexivity|].
  pose proof (C9_play_starts_from_bobbed_position false false 1 320 480
                demoMarkup [(16, 0); (16, 0)]) as H.
  cbv zeta in H.
  assert (Hp : shouldPause
                 (ticks [(16, 0); (16, 0)] (init false false 1 320 480 demoMarkup))
               = false) by (vm_compute; reflexivity).
  specialize (H Hp). destruct H as (_ & _ & _ & _ & H). exact H.
Defined.

End Runs.

Section RealRuns.
#[local] Existing Instance R_number.
Local Open Scope R_scope.

Lemma sin_small_pos (x : R) : 0 < x -> x < 3 -> 0 < sin x.
Proof.
  intros H0 H3. apply sin_gt_0; [exact H0|].
  pose proof PI2_3_2. Lra.lra.
Qed.

(** C9, the bob.  One READY tick, then the first input: play starts with the
    bird below its initial ordinate 150, at 150 + 5 sin 0.05. *)
Lemma C9_first_tick_moves_the_bird :
  state (handleInput (ticks [(16, 0)] demoStartR)) = PLAYING
  /\ 150 < bird_y (bird (handleInput (ticks [(16, 0)] demoStartR))).
Proof.
  pose proof (ticks_READY [(16, 0)] demoStartR eq_refl) as H.
  cbv zeta in H. destruct H as (Hs & Hp & Ha & _ & _ & _ & Hy).
  unfold handleInput. rewrite Hp.
  change (shouldPause demoStartR) with false. cbv iota.
  rewrite Ha. change (audioCtx demoStartR) with (@None AudioState). cbv iota.
  change (state (set_audioCtx (Some running) ?g)) with (state g).
  rewrite Hs. cbv iota. split; [reflexivity|].
  change (bird (set_state PLAYING (set_audioCtx (Some running) ?g))) with (bird g).
  rewrite Hy.
  change (150 < Q2R 150 + sin (Q2R (inject_Z 1) * Q2R 0.05) * Q2R 5).
  assert (Hx : Q2R (inject_Z 1) * Q2R 0.05 = 5 / 100)
    by (unfold Q2R; cbn [Qnum Qden inject_Z]; Lra.lra).
  assert (H150 : Q2R 150 = 150) by (unfold Q2R; cbn [Qnum Qden]; Lra.lra).
  assert (H5 : Q2R 5 = 5) by (unfold Q2R; cbn [Qnum Qden]; Lra.lra).
  rewrite Hx, H150, H5.
  assert (0 < sin (5 / 100)) by (apply sin_small_pos; Lra.lra).
  Lra.lra.
Qed.

End RealRuns.

(** ** The stored best score reads back *)

Lemma readDigits_string_of_uint acc d :
  readDigits 10 (Some acc) (NilEmpty.string_of_uint d) = Some (digitsValue acc d).
Proof.
  revert acc; induction d; intros acc; simpl; try reflexivity; apply IHd.
Qed.

Lemma readDigits_string_of_uint_None d :
  d <> Decimal.Nil ->
  readDigits 10 None (NilEmpty.string_of_uint d) = Some (digitsValue 0 d).
Proof.
  destruct d; intros H; [congruence| | | | | | | | | |]; simpl;
    apply readDigits_string_of_uint.
Qed.

Lemma of_uint_acc_value d acc :
  Z.pos (Pos.of_uint_acc d acc) = digitsValue (Z.pos acc) d.
Proof.
  revert acc; induction d; intros acc; cbn [Pos.of_uint_acc digitsValue];
    try reflexivity; rewrite IHd; f_equal; lia.
Qed.

Lemma of_uint_value d : Z.of_N (Pos.of_uint d) = digitsValue 0 d.
Proof.
  induction d; cbn [Pos.of_uint digitsValue Z.of_N]; try reflexivity;
    try exact IHd; rewrite of_uint_acc_value; reflexivity.
Qed.

Lemma parseInt_digits d :
  d <> Decimal.Nil ->
  parseInt (NilEmpty.string_of_uint d) = Int (digitsValue 0 d)
  /\ parseInt (String "-" (NilEmpty.string_of_uint d)) = Int (- digitsValue 0 d).
Proof.
  intros Hd. pose proof (readDigits_string_of_uint_None d Hd) as Hr.
  destruct d as [|l|l|l|l|l|l|l|l|l|l]; [congruence|..].
  2-10: (unfold parseInt; simpl; simpl in Hr; rewrite Hr; split; f_equal;
         destruct (digitsValue _ _); reflexivity).
  destruct l; unfold parseInt; simpl; simpl in Hr; rewrite ?Hr; split;
    try reflexivity; f_equal; destruct (digitsValue _ _); reflexivity.
Qed.

(** In the model the decimal text of an integer reads back as that
    integer. *)
Lemma parseInt_toString (n : Z) : parseInt (toString n) = Int n.
Proof.
  unfold toString. destruct n as [|p|p]; [reflexivity| |].
  - simpl. unfold NilZero.string_of_uint.
    pose proof (Unsigned.to_uint_nonnil p) as Hn.
    destruct (parseInt_digits _ Hn) as [H _].
    destruct (Pos.to_uint p) eqn:E; [congruence|..];
      rewrite H, <- of_uint_value, <- E, Unsigned.of_to; reflexivity.
  - simpl. unfold NilZero.string_of_uint.
    pose proof (Unsigned.to_uint_nonnil p) as Hn.
    destruct (parseInt_digits _ Hn) as [_ H].
    destruct (Pos.to_uint p) eqn:E; [congruence|..];
      rewrite H, <- of_uint_value, <- E, Unsigned.of_to; reflexivity.
Qed.

Section MoreProps.
Context {num : Type} {N : JSNumber num}.
Local Open Scope js_scope.
Implicit Types (g : Game num) (pipe : Pipe num) (b : Bird num).

Lemma tickFrame_refl g : tickFrame g g.
Proof. repeat split. Qed.

Lemma tickFrame_trans g1 g2 g3 : tickFrame g1 g2 -> tickFrame g2 g3 -> tickFrame g1 g3.
Proof. unfold tickFrame; intuition congruence. Qed.

Lemma playScoreSound_more g :
  let g' := outcome (playScoreSound g) in
  tickFrame g g' /\ spawnTimer g' = spawnTimer g /\ pipes g' = pipes g
  /\ currentScoreText (page g') = currentScoreText (page g)
  /\ (soundInv g -> soundInv g').
Proof.
  unfold playScoreSound, soundInv, MAX_CONCURRENT_SOUNDS.
  destruct (negb (isTabActive g)); [simpl; repeat split; tauto|].
  destruct (Nat.leb_spec 3 (activeSounds g)); [simpl; repeat split; tauto|].
  simpl. destruct (audioCtx g); simpl; repeat split; try tauto; lia.
Qed.

Lemma forEachPipe_more scaler g ps :
  let c := fst (forEachPipe scaler g ps) in
  let g' := outcome c in
  tickFrame g g' /\ spawnTimer g' = spawnTimer g
  /\ (score g <= score g')%Z
  /\ (soundInv g -> soundInv g')
  /\ (threw c = false -> displayInv g -> displayInv g').
Proof.
  revert g; induction ps as [|p ps IH]; intros g; simpl.
  - split; [apply tickFrame_refl|]. split; [reflexivity|]. split; [lia|]. split; auto.
  - destruct (nowPassed _ _).
    + pose proof (playScoreSound_more (set_score (score g + 1) g)) as Hs.
      pose proof (playScoreSound_keeps (set_score (score g + 1) g)) as [_ Hsc].
      destruct (playScoreSound _) as [g1|g1]; simpl in Hs, Hsc.
      * specialize (IH (set_page (set_currentScoreText (score g1) (page g1)) g1)).
        destruct (forEachPipe scaler _ ps) as [c ps']; simpl in *.
        destruct Hs as (Hf & Hst & _ & _ & Hsnd).
        destruct IH as (Hf' & Hst' & Hsc' & Hsnd' & Hd').
        split; [|split; [|split; [|split]]].
        -- eapply tickFrame_trans; [exact Hf|].
           eapply tickFrame_trans; [|exact Hf']. repeat split.
        -- congruence.
        -- lia.
        -- intros H. apply Hsnd', Hsnd, H.
        -- intros Hc _. apply Hd'; [exact Hc | reflexivity].
      * destruct Hs as (Hf & Hst & _ & _ & Hsnd). simpl.
        split; [exact Hf|]. split; [exact Hst|]. split; [lia|].
        split; [exact Hsnd | discriminate].
    + specialize (IH g). destruct (forEachPipe scaler g ps) as [c ps']. exact IH.
Qed.

Lemma gameOver_fields g :
  let g' := gameOver g in
  state g' = GAME_OVER /\ overlayHidden (page g') = false
  /\ restartHidden (page g') = false
  /\ frames g' = frames g /\ lastTime g' = lastTime g
  /\ prefersReducedMotion g' = prefersReducedMotion g
  /\ motionOverride g' = motionOverride g /\ isTabActive g' = isTabActive g
  /\ spawnTimer g' = spawnTimer g /\ activeSounds g' = activeSounds g
  /\ soundTimers (page g') = soundTimers (page g)
  /\ currentScoreText (page g') = currentScoreText (page g)
  /\ bestScoreText (page g')
     = (if js_gt (score g) (bestScore g) then Int (score g)
        else bestScoreText (page g))
  /\ storage (page g')
     = (if js_gt (score g) (bestScore g) then Some (toString (score g))
        else storage (page g)).
Proof. unfold gameOver. destruct (js_gt _ _); simpl; repeat split. Qed.

(** A tick in play, in full: up to the collision check it assigns only the
    bird, the background offsets, the spawn timer, the pipes, the score, the
    score text and the sound counters; it ends either inside the sound
    routine or with the collision check on pipes that are all on screen. *)
Lemma update_PLAYING_form dt rnd g :
  state g = PLAYING ->
  exists g3,
    tickFrame g g3
    /\ spawnTimer g3
       = (if spawnTimer g + clampDt dt >? PIPE_SPAWN_RATE then lit 0
          else spawnTimer g + clampDt dt)
    /\ (score g <= score g3)%Z
    /\ (soundInv g -> soundInv g3)
    /\ (List.length (pipes g3) <= S (List.length (pipes g)))%nat
    /\ (update dt rnd g = Throw g3
        \/ update dt rnd g = Normal (checkCollision g3)
           /\ Forall (fun pipe => onScreen pipe = true) (pipes g3)
           /\ (displayInv g -> displayInv g3)).
Proof.
  intros Hplay. unfold update. rewrite Hplay.
  set (scaler := frameScaler (clampDt dt)).
  set (g1 := set_spawnTimer _ (set_bgOffsets _ (set_bird _ g))).
  set (g2 := if spawnTimer g1 >? PIPE_SPAWN_RATE
             then set_spawnTimer (lit 0) (spawnPipe rnd g1) else g1).
  assert (H2 : tickFrame g g2
               /\ spawnTimer g2
                  = (if spawnTimer g + clampDt dt >? PIPE_SPAWN_RATE then lit 0
                     else spawnTimer g + clampDt dt)
               /\ score g2 = score g
               /\ activeSounds g2 = activeSounds g
               /\ page g2 = page g
               /\ (List.length (pipes g2) <= S (List.length (pipes g)))%nat).
  { subst g2. change (spawnTimer g1) with (spawnTimer g + clampDt dt).
    destruct (_ <? _); simpl; repeat split.
    - rewrite length_app; simpl; lia.
    - lia. }
  destruct H2 as (Hf2 & Hst2 & Hsc2 & Has2 & Hpg2 & Hlen2).
  clearbody g2. clear g1.
  pose proof (forEachPipe_more scaler g2 (pipes g2)) as Hloop.
  pose proof (forEachPipe_spec scaler g2 (pipes g2)) as Hspec.
  destruct (forEachPipe scaler g2 (pipes g2)) as [c ps'].
  simpl in Hloop, Hspec.
  destruct Hloop as (Hf & Hst & Hsc & Hsnd & Hdisp).
  destruct Hspec as (_ & k & Hk & Hall & Hps & _).
  assert (Hlen : List.length ps' = List.length (pipes g2)).
  { rewrite Hps, length_app, length_map, length_firstn, length_skipn. lia. }
  assert (Hsnd2 : soundInv g -> soundInv g2).
  { unfold soundInv. rewrite Has2, Hpg2. tauto. }
  assert (Hdisp2 : displayInv g -> displayInv g2).
  { unfold displayInv. rewrite Hsc2, Hpg2. tauto. }
  destruct c as [g3|g3]; simpl in *.
  - exists (set_pipes (filter onScreen ps') g3).
    split; [eapply tickFrame_trans; [exact Hf2 | exact Hf]|].
    split; [simpl; congruence|]. split; [simpl; lia|].
    split; [intros H; apply Hsnd, Hsnd2, H|].
    split; [simpl; pose proof (filter_length_le onScreen ps'); lia|].
    right. split; [reflexivity|]. split.
    + simpl. apply Forall_forall. intros p Hp. now apply filter_In in Hp.
    + intros H. apply (Hdisp eq_refl), Hdisp2, H.
  - exists (set_pipes ps' g3).
    split; [eapply tickFrame_trans; [exact Hf2 | exact Hf]|].
    split; [simpl; congruence|]. split; [simpl; lia|].
    split; [intros H; apply Hsnd, Hsnd2, H|].
    split; [simpl; lia|]. left. reflexivity.
Qed.

Lemma gameLoop_cases timestamp rnd g :
  shouldPause g = true /\ gameLoop timestamp rnd g = Normal g
  \/ shouldPause g = false
     /\ gameLoop timestamp rnd g
        = update (timestamp - lastTime g) rnd (set_lastTime timestamp g).
Proof. unfold gameLoop. destruct (shouldPause g); [left | right]; split; reflexivity. Qed.

(** What a frame leaves behind, by cases. *)
Lemma frame_outcome timestamp rnd g :
  let g' := outcome (gameLoop timestamp rnd g) in
  g' = g
  \/ (state g = READY /\ shouldPause g = false
      /\ g' = set_bird
                (set_bird_y
                   (lit 150
                    + Math_sin (lit (inject_Z (frames g + 1)) * lit 0.05) * lit 5)
                   (bird g))
                (set_frames (frames g + 1)%Z (set_lastTime timestamp g)))
  \/ (state g = GAME_OVER /\ g' = set_lastTime timestamp g)
  \/ (state g = PLAYING /\ shouldPause g = false
      /\ exists g3,
           tickFrame (set_lastTime timestamp g) g3
           /\ spawnTimer g3
              = (if spawnTimer g + clampDt (timestamp - lastTime g)
                    >? PIPE_SPAWN_RATE
                 then lit 0
                 else spawnTimer g + clampDt (timestamp - lastTime g))
           /\ (score g <= score g3)%Z
           /\ (soundInv g -> soundInv g3)
           /\ (List.length (pipes g3) <= S (List.length (pipes g)))%nat
           /\ (g' = g3 /\ audioCtx g = None
               \/ (g' = gameOver g3 \/ g' = g3)
                  /\ Forall (fun pipe => onScreen pipe = true) (pipes g3)
                  /\ (displayInv g -> displayInv g3))).
Proof.
  intros g'. subst g'.
  destruct (gameLoop_cases timestamp rnd g) as [[Hp ->] | [Hp ->]]; [now left|].
  right. destruct (state g) eqn:Hs.
  - left. rewrite update_READY by exact Hs. repeat split; assumption.
  - right; right. split; [reflexivity|]. split; [exact Hp|].
    destruct (update_PLAYING_form (timestamp - lastTime g) rnd
                (set_lastTime timestamp g) Hs)
      as (g3 & Hf & Hst & Hsc & Hsnd & Hlen & Hcases).
    exists g3. repeat (split; [assumption|]).
    destruct Hcases as [Hthrow | (Hnorm & Hon & Hdisp)].
    + left. rewrite Hthrow. split; [reflexivity|].
      destruct (audioCtx g) eqn:Ha; [|reflexivity].
      pose proof (update_PLAYING (timestamp - lastTime g) rnd
                    (set_lastTime timestamp g) Hs) as (_ & _ & _ & _ & Hret & _).
      rewrite Hthrow in Hret. simpl in Hret. rewrite Ha in Hret.
      discriminate Hret. discriminate.
    + right. rewrite Hnorm. simpl.
      split; [apply checkCollision_cases|]. split; assumption.
  - right; left. rewrite update_GAME_OVER by exact Hs. split; reflexivity.
Qed.

(** *** The sound counter *)

Lemma soundInv_step g e :
  soundInv g -> enabled e g = true -> soundInv (outcome (step e g)).
Proof.
  intros Hinv Hen. destruct e; simpl.
  - destruct (frame_outcome timestamp rnd g)
      as [-> | [(_ & _ & ->) | [(_ & ->) | (_ & _ & g3 & _ & _ & _ & Hs & _ & Hc)]]];
      try exact Hinv.
    specialize (Hs Hinv).
    destruct Hc as [[-> _] | [[-> | ->] _]]; try exact Hs.
    destruct (gameOver_fields g3) as (_ & _ & _ & _ & _ & _ & _ & _ & _ & Ha & Ht & _).
    unfold soundInv. rewrite Ha, Ht. exact Hs.
  - unfold handleInput. destruct (shouldPause g); [exact Hinv|].
    destruct (audioCtx g) as [[|]|]; destruct (state g) eqn:Hs; simpl;
      rewrite ?Hs; exact Hinv.
  - exact Hinv.
  - exact Hinv.
  - unfold visibilityChange; simpl. destruct (_ && _); exact Hinv.
  - exact Hinv.
  - simpl in Hen. apply Nat.ltb_lt in Hen. destruct Hinv as [H1 H2].
    unfold soundInv, soundTimeout; simpl. lia.
Qed.

Lemma reachable_soundInv (g0 g : Game num) :
  soundInv g0 -> reachable g0 g -> soundInv g.
Proof.
  intros H0 Hr. induction Hr as [|g e Hr IH Hen]; [exact H0|].
  now apply soundInv_step.
Qed.

(** *** Overlay and restart button *)

Lemma overlayInv_step g e :
  overlayInv g -> enabled e g = true -> overlayInv (outcome (step e g)).
Proof.
  intros Hinv Hen. destruct e; simpl.
  - destruct (frame_outcome timestamp rnd g)
      as [-> | [(Hs & _ & ->) | [(_ & ->) | (Hs & _ & g3 & Hf & _ & _ & _ & _ & Hc)]]];
      try exact Hinv.
    assert (H3 : overlayInv g3).
    { destruct Hf as (E1 & _ & _ & _ & _ & _ & _ & _ & _ & _ & _ & _ & _ & E2 & E3 & _).
      unfold overlayInv. rewrite E1, E2, E3. exact Hinv. }
    destruct Hc as [[-> _] | [[-> | ->] _]]; try exact H3.
    destruct (gameOver_fields g3) as (E1 & E2 & E3 & _).
    unfold overlayInv. rewrite E1, E2, E3. tauto.
  - unfold handleInput. destruct (shouldPause g); [exact Hinv|].
    destruct Hinv as [H1 H2]. unfold overlayInv.
    destruct (audioCtx g) as [[|]|]; destruct (state g) eqn:Hs; simpl;
      rewrite ?Hs; simpl;
      (split; [first [exact H1 | reflexivity]|]); rewrite ?Hs;
      first [exact H2
            | split; intros F;
              first [discriminate F | apply H2 in F; discriminate F]].
  - unfold overlayInv; simpl. split; [reflexivity | split; discriminate].
  - exact Hinv.
  - unfold visibilityChange; simpl. destruct (_ && _); exact Hinv.
  - exact Hinv.
  - exact Hinv.
Qed.

Lemma reachable_overlayInv (g0 g : Game num) :
  overlayInv g0 -> reachable g0 g -> overlayInv g.
Proof.
  intros H0 Hr. induction Hr as [|g e Hr IH Hen]; [exact H0|].
  now apply overlayInv_step.
Qed.

(** *** The score displays *)

Lemma displays_step g e :
  invariant g /\ displayInv g /\ bestScoreText (page g) = bestScore g ->
  enabled e g = true ->
  displayInv (outcome (step e g))
  /\ bestScoreText (page (outcome (step e g))) = bestScore (outcome (step e g)).
Proof.
  intros (Ha & Hd & Hb) Hen. destruct e; simpl.
  - destruct (frame_outcome timestamp rnd g)
      as [-> | [(Hs & _ & ->) | [(_ & ->) | (Hs & _ & g3 & Hf & _ & _ & _ & _ & Hc)]]];
      try (split; assumption).
    destruct Hf as (_ & _ & _ & E1 & _ & _ & _ & _ & _ & _ & _ & _ & E2 & _).
    simpl in E1, E2.
    destruct Hc as [[_ Hnone] | [Hg' [_ Hdisp]]].
    + apply Ha in Hnone as [? _]. congruence.
    + specialize (Hdisp Hd).
      destruct Hg' as [-> | ->]; [|split; [exact Hdisp | congruence]].
      destruct (gameOver_fields g3)
        as (_ & _ & _ & _ & _ & _ & _ & _ & _ & _ & _ & Ht & Hbt & _).
      split.
      * unfold displayInv. rewrite Ht, score_gameOver. exact Hdisp.
      * rewrite Hbt, bestScore_gameOver. destruct (js_gt _ _); congruence.
  - unfold handleInput. destruct (shouldPause g); [split; assumption|].
    destruct (audioCtx g) as [[|]|]; destruct (state g) eqn:Hs; simpl;
      rewrite ?Hs; simpl; split; try assumption; reflexivity.
  - split; [reflexivity | exact Hb].
  - split; assumption.
  - unfold visibilityChange; simpl. destruct (_ && _); split; assumption.
  - split; assumption.
  - split; assumption.
Qed.

Lemma reachable_displays (g0 g : Game num) :
  invariant g0 -> displayInv g0 -> bestScoreText (page g0) = bestScore g0 ->
  reachable g0 g ->
  displayInv g /\ bestScoreText (page g) = bestScore g.
Proof.
  intros Ha Hd Hb Hr. induction Hr as [|g e Hr IH Hen]; [split; assumption|].
  apply displays_step; [|exact Hen].
  split; [now apply (reachable_invariant g0) | exact IH].
Qed.

(** *** The stored best score *)

Lemma stored_step g e :
  initBestScore (storage (page g)) = bestScore g ->
  enabled e g = true ->
  initBestScore (storage (page (outcome (step e g)))) = bestScore (outcome (step e g)).
Proof.
  intros Hinv Hen. destruct e; simpl.
  - destruct (frame_outcome timestamp rnd g)
      as [-> | [(Hs & _ & ->) | [(_ & ->) | (Hs & _ & g3 & Hf & _ & _ & _ & _ & Hc)]]];
      try exact Hinv.
    destruct Hf as (_ & _ & _ & E1 & _ & _ & _ & _ & _ & _ & _ & E2 & _).
    simpl in E1, E2.
    assert (H3 : initBestScore (storage (page g3)) = bestScore g3) by congruence.
    destruct Hc as [[-> _] | [[-> | ->] _]]; try exact H3.
    destruct (gameOver_fields g3)
      as (_ & _ & _ & _ & _ & _ & _ & _ & _ & _ & _ & _ & _ & Hst).
    rewrite Hst, bestScore_gameOver. destruct (js_gt _ _); [|exact H3].
    unfold initBestScore.
    assert (Hne : toString (score g3) <> EmptyString).
    { intros E. pose proof (parseInt_toString (score g3)) as P.
      rewrite E in P. unfold parseInt in P. simpl in P. discriminate P. }
    destruct (toString (score g3)) eqn:E; [congruence|].
    rewrite <- E. apply parseInt_toString.
  - unfold handleInput. destruct (shouldPause g); [exact Hinv|].
    destruct (audioCtx g) as [[|]|]; destruct (state g) eqn:Hs; simpl;
      rewrite ?Hs; exact Hinv.
  - exact Hinv.
  - exact Hinv.
  - unfold visibilityChange; simpl. destruct (_ && _); exact Hinv.
  - exact Hinv.
  - exact Hinv.
Qed.

Lemma toString_nonempty (n : Z) : toString n <> EmptyString.
Proof.
  intros E. pose proof (parseInt_toString n) as P.
  rewrite E in P. unfold parseInt in P. simpl in P. discriminate P.
Qed.

(** X15. A game over with a new best score stores it so that the next
    start-up reads the same best score back: for a score from 0 up to 2^53
    (where the host prints and reads an integer exactly) that exceeds the
    best score, [gameOver] sets the best score and its text to the score,
    stores the score's decimal text, and the initializer applied to the
    stored item gives the score again. *)
Theorem new_best_score_reads_back (g : Game num) :
  (0 <= score g < 2 ^ 53)%Z -> js_gt (score g) (bestScore g) = true ->
  bestScore (gameOver g) = Int (score g)
  /\ bestScoreText (page (gameOver g)) = Int (score g)
  /\ storage (page (gameOver g)) = Some (toString (score g))
  /\ initBestScore (storage (page (gameOver g))) = Int (score g).
Proof.
  intros _ Hgt.
  destruct (gameOver_fields g)
    as (_ & _ & _ & _ & _ & _ & _ & _ & _ & _ & _ & _ & Htx & Hst).
  rewrite Hgt in Htx, Hst. rewrite bestScore_gameOver, Hgt, Htx, Hst.
  repeat split. unfold initBestScore.
  pose proof (toString_nonempty (score g)) as Hne.
  destruct (toString (score g)) eqn:E; [congruence|].
  rewrite <- E. apply parseInt_toString.
Qed.

(** *** Pipes on screen *)

Lemma onScreen_step g e :
  invariant g -> Forall (fun pipe => onScreen pipe = true) (pipes g) ->
  enabled e g = true ->
  Forall (fun pipe => onScreen pipe = true) (pipes (outcome (step e g)))
  /\ (List.length (pipes (outcome (step e g))) <= S (List.length (pipes g)))%nat.
Proof.
  intros Ha Hinv Hen. destruct e; simpl.
  - destruct (frame_outcome timestamp rnd g)
      as [-> | [(Hs & _ & ->) | [(_ & ->) | (Hs & _ & g3 & _ & _ & _ & _ & Hlen & Hc)]]];
      try (split; [exact Hinv | simpl; lia]).
    destruct Hc as [[_ Hnone] | [Hg' [Hon _]]].
    + apply Ha in Hnone as [? _]. congruence.
    + destruct Hg' as [-> | ->]; rewrite ?pipes_gameOver; split; assumption.
  - unfold handleInput. destruct (shouldPause g); [split; [exact Hinv | lia]|].
    destruct (audioCtx g) as [[|]|]; destruct (state g) eqn:Hs; simpl;
      rewrite ?Hs; simpl; split; try exact Hinv; try constructor; lia.
  - simpl. split; [constructor | lia].
  - split; [exact Hinv | simpl; lia].
  - unfold visibilityChange; simpl. destruct (_ && _); split; try exact Hinv; simpl; lia.
  - split; [exact Hinv | simpl; lia].
  - split; [exact Hinv | simpl; lia].
Qed.

(** *** Reduced motion *)

Lemma untouched_step g e :
  invariant g ->
  (prefersReducedMotion g = true -> motionOverride g = false -> untouched g) ->
  enabled e g = true ->
  prefersReducedMotion (outcome (step e g)) = true ->
  motionOverride (outcome (step e g)) = false ->
  untouched (outcome (step e g)).
Proof.
  intros Ha Hinv Hen. 
  assert (Hpause : prefersReducedMotion g = true -> motionOverride g = false ->
                   shouldPause g = true).
  { intros H1 H2. unfold shouldPause. rewrite H1, H2. now destruct (negb _). }
  destruct e; simpl.
  - destruct (gameLoop_cases timestamp rnd g) as [[Hp ->] | [Hp Hg]]; [exact Hinv|].
    intros H1 H2.
    assert (E1 : prefersReducedMotion g = true /\ motionOverride g = false).
    { destruct (frame_outcome timestamp rnd g)
        as [E | [(_ & _ & E) | [(_ & E) | (Hs & _ & g3 & Hf & _ & _ & _ & _ & Hc)]]];
        try (rewrite E in H1, H2; split; assumption).
      destruct Hf as (_ & _ & _ & _ & F1 & F2 & _). simpl in F1, F2.
      destruct Hc as [[E _] | [[E | E] _]]; rewrite E in H1, H2;
        try (destruct (gameOver_fields g3) as (_ & _ & _ & _ & _ & G1 & G2 & _);
             rewrite G1 in H1; rewrite G2 in H2);
        split; congruence. }
    destruct E1 as [E1 E2]. pose proof (Hpause E1 E2). congruence.
  - intros H1 H2. unfold handleInput in *.
    destruct (shouldPause g) eqn:Hp; [exact (Hinv H1 H2)|].
    assert (E : prefersReducedMotion g = true /\ motionOverride g = false).
    { destruct (audioCtx g) as [[|]|]; destruct (state g) eqn:Hs; simpl in H1, H2;
        rewrite ?Hs in H1, H2; simpl in H1, H2; split; assumption. }
    destruct E as [E1 E2]. pose proof (Hpause E1 E2). congruence.
  - simpl. intros H1 H2. destruct (Hinv H1 H2) as (_ & _ & _ & _ & _ & Hnone).
    apply Ha in Hnone as [_ Hh]. simpl in Hen. rewrite Hh in Hen. discriminate.
  - simpl. discriminate.
  - unfold visibilityChange; simpl. destruct (_ && _); exact Hinv.
  - exact Hinv.
  - exact Hinv.
Qed.

(** *** What holds of every state the page reaches *)

Section FromInit.
Variables (reducedMotion hidden : bool) (devicePixelRatio w h : num).
Variable markup : Page num.

(** X1. Reloading the page at any time restores the best score: the stored
    item, read the way start-up reads it, is the best score in memory. *)
Theorem stored_best_score_agrees g :
  reachable (init reducedMotion hidden devicePixelRatio w h markup) g ->
  initBestScore (storage (page g)) = bestScore g.
Proof.
  intros Hr. induction Hr as [|g e Hr IH Hen].
  - unfold init; simpl. destruct (reducedMotion && _); reflexivity.
  - now apply stored_step.
Qed.

(** X2. The sound counter never exceeds its cap of 3 and never falls below
    the number of timeouts still pending, so no timeout takes it below 0. *)
Theorem sound_counter_within_cap g :
  soundTimers markup = 0%nat ->
  reachable (init reducedMotion hidden devicePixelRatio w h markup) g ->
  (activeSounds g <= 3)%nat /\ (soundTimers (page g) <= activeSounds g)%nat.
Proof.
  intros Hm Hr. apply (reachable_soundInv
      (init reducedMotion hidden devicePixelRatio w h markup)); [|exact Hr].
  unfold soundInv, init, MAX_CONCURRENT_SOUNDS; simpl.
  destruct (reducedMotion && _); simpl; rewrite Hm; lia.
Qed.

(** X3. When the markup hides them at first, the game-over overlay and the
    restart button are shown together and exactly while the game is over. *)
Theorem overlay_shown_iff_game_over g :
  overlayHidden markup = true -> restartHidden markup = true ->
  reachable (init reducedMotion hidden devicePixelRatio w h markup) g ->
  overlayHidden (page g) = restartHidden (page g)
  /\ (restartHidden (page g) = false <-> state g = GAME_OVER).
Proof.
  intros Ho Hh Hr. apply (reachable_overlayInv
      (init reducedMotion hidden devicePixelRatio w h markup)); [|exact Hr].
  unfold overlayInv, init; simpl.
  destruct (reducedMotion && _); simpl; rewrite Ho, Hh;
    (split; [reflexivity | split; discriminate]).
Qed.

(** X4. The two score displays show the scores in memory: the current score
    text is the score and the best score text is the best score. *)
Theorem score_displays_agree g :
  restartHidden markup = true -> currentScoreText markup = 0%Z ->
  reachable (init reducedMotion hidden devicePixelRatio w h markup) g ->
  currentScoreText (page g) = score g /\ bestScoreText (page g) = bestScore g.
Proof.
  intros Hh Ht Hr. apply (reachable_displays
      (init reducedMotion hidden devicePixelRatio w h markup)); [| | |exact Hr].
  - now apply invariant_init.
  - unfold displayInv, init; simpl.
    destruct (reducedMotion && _); simpl; exact Ht.
  - unfold init; simpl. destruct (reducedMotion && _); reflexivity.
Qed.

(** X5. Every pipe of a reachable state is on screen (its right edge is
    right of -10), and no event adds more than one pipe. *)
Theorem pipes_stay_on_screen g :
  restartHidden markup = true ->
  reachable (init reducedMotion hidden devicePixelRatio w h markup) g ->
  Forall (fun pipe => (pipe_x pipe + PIPE_WIDTH >? lit (-10)) = true) (pipes g)
  /\ forall e, enabled e g = true ->
       (List.length (pipes (outcome (step e g))) <= S (List.length (pipes g)))%nat.
Proof.
  intros Hh Hr.
  assert (Hon : Forall (fun pipe => onScreen pipe = true) (pipes g)).
  { induction Hr as [|g e Hr IH Hen].
    - unfold init; simpl. destruct (reducedMotion && _); constructor.
    - apply onScreen_step; [|exact IH | exact Hen].
      apply (reachable_invariant
          (init reducedMotion hidden devicePixelRatio w h markup));
          [now apply invariant_init | exact Hr]. }
  split; [exact Hon|]. intros e He.
  apply onScreen_step; [|exact Hon | exact He].
  apply (reachable_invariant
      (init reducedMotion hidden devicePixelRatio w h markup));
      [now apply invariant_init | exact Hr].
Qed.

(** X6. When the markup hides the restart button at first: with reduced
    motion preferred and until the user overrides it, the game stays as
    start-up left it: READY, no frame counted, score 0, no pipes, the bird
    at its initial place, no audio context. *)
Theorem reduced_motion_keeps_game_untouched g :
  reducedMotion = true -> restartHidden markup = true ->
  reachable (init reducedMotion hidden devicePixelRatio w h markup) g ->
  motionOverride g = false ->
  state g = READY /\ frames g = 0%Z /\ score g = 0%Z /\ pipes g = []
  /\ bird g = initialBird /\ audioCtx g = None.
Proof.
  intros Hrm Hh Hr.
  assert (H : prefersReducedMotion g = true /\ (motionOverride g = false -> untouched g)).
  { induction Hr as [|g e Hr IH Hen].
    - unfold untouched, init; simpl. rewrite Hrm; simpl.
      split; [reflexivity | intros _; repeat split].
    - destruct IH as [Hp IH].
      assert (Hp' : prefersReducedMotion (outcome (step e g)) = true).
      { destruct e; simpl; try exact Hp.
        - destruct (frame_outcome timestamp rnd g)
            as [-> | [(_ & _ & ->) | [(_ & ->) | (_ & _ & g3 & Hf & _ & _ & _ & _ & Hc)]]];
            try exact Hp.
          destruct Hf as (_ & _ & _ & _ & F1 & _). simpl in F1.
          destruct Hc as [[-> _] | [[-> | ->] _]]; try congruence.
          destruct (gameOver_fields g3) as (_ & _ & _ & _ & _ & G1 & _). congruence.
        - unfold handleInput. destruct (shouldPause g); [exact Hp|].
          destruct (audioCtx g) as [[|]|]; destruct (state g) eqn:Hs; simpl;
            rewrite ?Hs; exact Hp.
        - unfold visibilityChange; simpl. destruct (_ && _); exact Hp. }
      split; [exact Hp'|]. intros Ho.
      apply untouched_step; [| |exact Hen | exact Hp' | exact Ho].
      + apply (reachable_invariant
          (init reducedMotion hidden devicePixelRatio w h markup));
          [now apply invariant_init | exact Hr].
      + intros _. exact IH. }
  destruct H as [_ H]. intros Ho. exact (H Ho).
Qed.

End FromInit.

(** X7. No event lowers the best score: it stays as it is or becomes a score
    strictly greater than it. *)
Theorem best_score_only_rises e g :
  bestScore (outcome (step e g)) = bestScore g
  \/ exists s, bestScore (outcome (step e g)) = Int s
              /\ js_gt s (bestScore g) = true.
Proof.
  destruct e; simpl; try (left; reflexivity).
  - destruct (frame_outcome timestamp rnd g)
      as [-> | [(_ & _ & ->) | [(_ & ->) | (_ & _ & g3 & Hf & _ & _ & _ & _ & Hc)]]];
      try (left; reflexivity).
    destruct Hf as (_ & _ & _ & F & _). simpl in F.
    destruct Hc as [[-> _] | [[-> | ->] _]]; try (left; exact F).
    rewrite bestScore_gameOver. destruct (js_gt _ _) eqn:E; [|left; exact F].
    right. exists (score g3). rewrite <- F. split; [reflexivity | exact E].
  - unfold handleInput. destruct (shouldPause g); [left; reflexivity|].
    destruct (audioCtx g) as [[|]|]; destruct (state g) eqn:Hs; simpl;
      rewrite ?Hs; left; reflexivity.
  - unfold visibilityChange; simpl. destruct (_ && _); left; reflexivity.
Qed.

(** X8. The background offsets are moved by a tick in play and by nothing
    else; in particular a restart does not rewind them. *)
Theorem background_moves_only_in_play e g :
  bgOffsets (outcome (step e g)) = bgOffsets g
  \/ state g = PLAYING /\ shouldPause g = false
     /\ exists timestamp rnd,
          e = Frame timestamp rnd
          /\ bgOffsets (outcome (step e g))
             = updateBackground
                 (frameScaler (clampDt (timestamp - lastTime g))) (bgOffsets g).
Proof.
  destruct e; simpl; try (left; reflexivity).
  - destruct (gameLoop_cases timestamp rnd g) as [[Hp ->] | [Hp ->]];
      [left; reflexivity|].
    destruct (state g) eqn:Hs.
    + left. rewrite update_READY by exact Hs. reflexivity.
    + right. split; [reflexivity|]. split; [exact Hp|].
      exists timestamp, rnd. split; [reflexivity|].
      now destruct (update_PLAYING (timestamp - lastTime g) rnd
                      (set_lastTime timestamp g) Hs) as (_ & -> & _).
    + left. rewrite update_GAME_OVER by exact Hs. reflexivity.
  - unfold handleInput. destruct (shouldPause g); [left; reflexivity|].
    destruct (audioCtx g) as [[|]|]; destruct (state g) eqn:Hs; simpl;
      rewrite ?Hs; left; reflexivity.
  - unfold visibilityChange; simpl. destruct (_ && _); left; reflexivity.
Qed.

(** X9. An event either leaves the score at least as high as it was, or it
    is a restart, which sets it to 0 and starts play. *)
Theorem score_rises_or_restarts e g :
  (score g <= score (outcome (step e g)))%Z
  \/ score (outcome (step e g)) = 0%Z /\ state (outcome (step e g)) = PLAYING.
Proof.
  destruct e; simpl; try (left; lia).
  - destruct (frame_outcome timestamp rnd g)
      as [-> | [(_ & _ & ->) | [(_ & ->) | (_ & _ & g3 & _ & _ & Hsc & _ & _ & Hc)]]];
      try (left; simpl; lia).
    left. destruct Hc as [[-> _] | [[-> | ->] _]]; rewrite ?score_gameOver; exact Hsc.
  - unfold handleInput. destruct (shouldPause g); [left; lia|].
    destruct (audioCtx g) as [[|]|]; destruct (state g) eqn:Hs; simpl;
      rewrite ?Hs; simpl; first [left; lia | right; split; reflexivity].
  - right. split; reflexivity.
  - unfold visibilityChange; simpl. destruct (_ && _); left; simpl; lia.
Qed.

End MoreProps.

Section MoreRational.
Variable qsin : Q -> Q.
#[local] Hint Extern 0 (JSNumber Q) => exact (Q_number qsin) : typeclass_instances.
Local Open Scope Q_scope.

Lemma inject_Z_sub (z k : Z) : inject_Z (z - k) == inject_Z z - inject_Z k.
Proof. unfold Z.sub. rewrite inject_Z_plus, inject_Z_opp. reflexivity. Qed.

(** X10. On a canvas whose height in CSS pixels is a whole number of at
    least 230, [spawnPipe] appends one pipe, not yet passed, at the right
    edge, whose gap top is a whole number between 50 and height - 180: the
    gap of 130 keeps 50 pixels clear of the top and of the bottom. *)
Theorem spawnPipe_gap_in_range (rnd : Q) (g : Game Q) (height : Z) :
  0 <= rnd -> rnd < 1 ->
  canvas_height (page g) / dpr g == inject_Z height -> (230 <= height)%Z ->
  exists gapY : Z,
    pipes (spawnPipe rnd g)
    = pipes g ++ [ {| pipe_x := canvas_width (page g) / dpr g;
                      pipe_y := inject_Z gapY + 50;
                      pipe_passed := false |} ]
    /\ (0 <= gapY <= height - 230)%Z
    /\ 50 <= inject_Z gapY + 50
    /\ inject_Z gapY + 50 + PIPE_GAP <= inject_Z height - 50.
Proof.
  intros H0 H1 Hh Hmin.
  set (X := rnd * (canvas_height (page g) / dpr g - 50 - PIPE_GAP - 50 + 1)).
  exists (Qfloor X). split; [reflexivity|].
  assert (HX : X == rnd * inject_Z (height - 229)).
  { subst X. rewrite Hh, inject_Z_sub. unfold PIPE_GAP; simpl.
    change (inject_Z 229) with 229. ring. }
  assert (Hc : 1 <= inject_Z (height - 229)).
  { change 1 with (inject_Z 1). rewrite <- Zle_Qle. lia. }
  assert (HX0 : 0 <= X).
  { rewrite HX. apply Qmult_le_0_compat; [exact H0 | lra]. }
  assert (HX1 : X < inject_Z (height - 229)).
  { rewrite HX. setoid_replace (inject_Z (height - 229))
      with (1 * inject_Z (height - 229)) at 2 by ring.
    apply Qmult_lt_compat_r; [lra | exact H1]. }
  assert (Hf0 : (0 <= Qfloor X)%Z).
  { change 0%Z with (Qfloor 0). now apply Qfloor_resp_le. }
  assert (Hf1 : (Qfloor X < height - 229)%Z).
  { rewrite Zlt_Qlt. eapply Qle_lt_trans; [apply Qfloor_le | exact HX1]. }
  split; [lia|].
  assert (Hq0 : 0 <= inject_Z (Qfloor X)).
  { change 0 with (inject_Z 0). now rewrite <- Zle_Qle. }
  assert (Hq1 : inject_Z (Qfloor X) <= inject_Z height - 230).
  { change 230 with (inject_Z 230). rewrite <- inject_Z_sub, <- Zle_Qle. lia. }
  clearbody X. unfold PIPE_GAP; simpl. split; lra.
Qed.

Lemma Qltb_false (a b : Q) : ltb a b = false <-> b <= a.
Proof.
  split; intros H.
  - apply Qnot_lt_le. intros Hlt. apply (Qltb_true qsin) in Hlt. congruence.
  - destruct (ltb a b) eqn:E; [|reflexivity].
    apply (Qltb_true qsin) in E. lra.
Qed.

(** X11. The rotation of the bird stays between the nose-up angle
    -25 pi / 180 and the nose-down angle 90 pi / 180: a tick that does not
    run backwards keeps it in that range.  It sets the rotation to the
    nose-up angle when the new velocity is upward; otherwise the rotation
    grows by exactly 2 pi / 180 * scaler when that stays within the
    nose-down angle, and is the nose-down angle when it would pass it. *)
Theorem rotation_stays_in_range (s : Q) (b : Bird Q) :
  0 <= s ->
  (lit (-25) * Math_PI / lit 180)%js <= bird_rotation b ->
  bird_rotation b <= (lit 90 * Math_PI / lit 180)%js ->
  (lit (-25) * Math_PI / lit 180)%js <= bird_rotation (updateBird s b)
  /\ bird_rotation (updateBird s b) <= (lit 90 * Math_PI / lit 180)%js
  /\ (bird_velocity (updateBird s b) < 0 ->
      bird_rotation (updateBird s b) = (lit (-25) * Math_PI / lit 180)%js)
  /\ (0 <= bird_velocity (updateBird s b) ->
      bird_rotation b <= bird_rotation (updateBird s b))
  /\ (0 <= bird_velocity (updateBird s b) ->
      (bird_rotation b + lit 2 * Math_PI / lit 180 * s)%js
      <= (lit 90 * Math_PI / lit 180)%js ->
      bird_rotation (updateBird s b)
      = (bird_rotation b + lit 2 * Math_PI / lit 180 * s)%js)
  /\ (0 <= bird_velocity (updateBird s b) ->
      (lit 90 * Math_PI / lit 180)%js
      < (bird_rotation b + lit 2 * Math_PI / lit 180 * s)%js ->
      bird_rotation (updateBird s b) = (lit 90 * Math_PI / lit 180)%js).
Proof.
  intros Hs Hlo Hhi. unfold updateBird.
  set (b1 := set_bird_y _ (set_bird_velocity _ b)).
  change (bird_rotation b) with (bird_rotation b1) in *.
  assert (Hv : bird_velocity b1 = bird_velocity (updateBird s b))
    by (symmetry; apply updateBird_velocity).
  clearbody b1.
  set (lo := (lit (-25) * Math_PI / lit 180)%js) in *.
  set (hi := (lit 90 * Math_PI / lit 180)%js) in *.
  set (step := (lit 2 * Math_PI / lit 180 * s)%js) in *.
  assert (Hlohi : lo <= hi).
  { subst lo hi. apply Qle_bool_iff. reflexivity. }
  assert (Hstep : 0 <= step).
  { subst step. apply Qmult_le_0_compat; [|exact Hs].
    apply Qle_bool_iff. reflexivity. }
  clearbody lo hi step.
  destruct (ltb (bird_velocity b1) (lit 0)) eqn:E.
  - apply (Qltb_true qsin) in E. cbn [lit Q_number] in E.
    cbn [bird_rotation set_bird_rotation bird_velocity].
    split; [lra|]. split; [lra|]. split; [reflexivity|].
    split; [intros H; lra|]. split; intros H H'; exfalso; lra.
  - apply Qltb_false in E. cbn [lit Q_number] in E.
    cbn [bird_rotation set_bird_rotation bird_velocity].
    destruct (ltb hi (add (bird_rotation b1) step)) eqn:E2;
      [apply (Qltb_true qsin) in E2 | apply Qltb_false in E2];
      cbn [add Q_number] in E2;
      cbn [bird_rotation set_bird_rotation bird_velocity add Q_number];
      (split; [lra|]; split; [lra|]; split; [intros H; lra|];
       split; [intros _; lra|];
       split; intros _ H'; cbn [add Q_number] in H';
       first [reflexivity | exfalso; lra]).
Qed.

Lemma hitbox_columns (g : Game Q) :
  birdFixed g -> birdLeft g == 39 /\ birdRight g == 61.
Proof.
  intros [Hx Hr]. unfold birdLeft, birdRight. rewrite Hx, Hr.
  split; reflexivity.
Qed.

(** X12. A pipe can only hit while it is within reach of the bird's column:
    with the bird at abscissa 50 and radius 15, a hit needs the pipe's left
    edge strictly between -13 and 61.  Hence a pipe spawned at an abscissa
    of at least 73 cannot hit in the tick that spawns it. *)
Theorem hit_needs_pipe_at_bird (g : Game Q) (pipe : Pipe Q) :
  birdFixed g ->
  (hitsPipe g pipe = true -> -13 < pipe_x pipe /\ pipe_x pipe < 61)
  /\ (forall s, 0 <= s -> s <= 6 -> 73 <= pipe_x pipe ->
       hitsPipe g (visitPipe s (bird_x (bird g)) pipe) = false).
Proof.
  intros Hfix. destruct (hitbox_columns g Hfix) as [HL HR].
  assert (Hwin : forall p, hitsPipe g p = true -> -13 < pipe_x p /\ pipe_x p < 61).
  { intros p Hhit. apply hitsPipe_true in Hhit as [[H1 H2] _].
    apply (Qltb_true qsin) in H1, H2. rewrite HR in H1. rewrite HL in H2.
    unfold PIPE_WIDTH in H2. cbn [lit add Q_number] in H2. split; lra. }
  split; [apply Hwin|].
  intros s Hs0 Hs6 Hx.
  destruct (hitsPipe g (visitPipe s (bird_x (bird g)) pipe)) eqn:E; [|reflexivity].
  apply Hwin in E as [_ E].
  assert (Hmove : pipe_x (visitPipe s (bird_x (bird g)) pipe) = pipe_x pipe - 2 * s).
  { unfold visitPipe. destruct (nowPassed _ _); reflexivity. }
  rewrite Hmove in E. lra.
Qed.

(** X13. The spawn timer never exceeds the spawn interval of 1800 ms: a
    tick that takes it past 1800 spawns and sets it back to 0. *)
Theorem spawn_timer_within_interval
  reducedMotion hidden devicePixelRatio w h (markup : Page Q) (g : Game Q) :
  reachable (init reducedMotion hidden devicePixelRatio w h markup) g ->
  spawnTimer g <= 1800.
Proof.
  intros Hr. induction Hr as [|g e Hr IH Hen].
  - unfold init; simpl. destruct (reducedMotion && _); simpl; lra.
  - destruct e; simpl; try exact IH.
    + destruct (frame_outcome timestamp rnd g)
        as [-> | [(_ & _ & ->) | [(_ & ->) | (_ & _ & g3 & _ & Hst & _ & _ & _ & Hc)]]];
        try exact IH.
      assert (H3 : spawnTimer g3 <= 1800).
      { rewrite Hst. unfold PIPE_SPAWN_RATE.
        destruct (ltb (lit 1800) _) eqn:E; [cbn [lit Q_number]; lra|].
        apply Qltb_false in E. exact E. }
      destruct Hc as [[-> _] | [[-> | ->] _]]; try exact H3.
      destruct (gameOver_fields g3) as (_ & _ & _ & _ & _ & _ & _ & _ & -> & _).
      exact H3.
    + unfold handleInput. destruct (shouldPause g); [exact IH|].
      destruct (audioCtx g) as [[|]|]; destruct (state g) eqn:Hs; simpl;
        rewrite ?Hs; simpl; first [exact IH | lra].
    + lra.
    + unfold visibilityChange; simpl. destruct (_ && _); exact IH.
Qed.

End MoreRational.

Section MoreReal.
#[local] Existing Instance R_number.
Local Open Scope R_scope.

(** X14. While the game waits in READY the bird bobs within 5 pixels of its
    initial ordinate: after any number of ticks since start-up its ordinate
    lies between 145 and 155. *)
Theorem ready_bob_within_five
  reducedMotion hidden devicePixelRatio w h (markup : Page R)
  (fs : list (R * R)) :
  145 <= bird_y (bird (ticks fs
      (init reducedMotion hidden devicePixelRatio w h markup)))
  <= 155.
Proof.
  set (g0 := init reducedMotion hidden devicePixelRatio w h markup).
  assert (H0 : state g0 = READY /\ bird_y (bird g0) = lit 150).
  { subst g0. unfold init; simpl. destruct (reducedMotion && _); split; reflexivity. }
  destruct H0 as [Hs0 Hy0].
  destruct (ticks_READY fs g0 Hs0) as (_ & _ & _ & _ & _ & _ & Hy).
  rewrite Hy. clear Hy.
  assert (H150 : Q2R 150 = 150) by (unfold Q2R; cbn [Qnum Qden]; Lra.lra).
  assert (H5 : Q2R 5 = 5) by (unfold Q2R; cbn [Qnum Qden]; Lra.lra).
  destruct fs as [|f fs].
  - rewrite Hy0. change (145 <= Q2R 150 <= 155). rewrite H150. Lra.lra.
  - match goal with
    | |- context [Math_sin ?x] =>
        change (145 <= Q2R 150 + sin x * Q2R 5 <= 155);
        pose proof (SIN_bound x) as [Hlo Hhi]
    end.
    rewrite H150, H5. Lra.lra.
Qed.

End MoreReal.

(** ** The passed flag, tick by tick *)

Section PassedProps.
Context {num : Type} {N : JSNumber num}.
Local Open Scope js_scope.

Lemma visitPipe_x scaler birdX (pipe : Pipe num) :
  pipe_x (visitPipe scaler birdX pipe) = pipe_x pipe - PIPE_SPEED * scaler.
Proof. unfold visitPipe. destruct (nowPassed _ _); reflexivity. Qed.

Lemma visitPipe_flag scaler birdX (pipe : Pipe num) :
  pipe_passed (visitPipe scaler birdX pipe)
  = pipe_passed pipe
    || (pipe_x (visitPipe scaler birdX pipe) + PIPE_WIDTH <? birdX).
Proof. rewrite visitPipe_x. apply visitPipe_passed. Qed.

Lemma transitions_same (ps : list (Pipe num)) : transitions ps ps = 0%nat.
Proof.
  induction ps as [|p ps IH]; simpl; [reflexivity|].
  rewrite IH. destruct (pipe_passed p); reflexivity.
Qed.

Lemma transitions_visited scaler birdX (ps : list (Pipe num)) k :
  transitions ps (map (visitPipe scaler birdX) (firstn k ps) ++ skipn k ps)
  = newlyPassed scaler birdX (firstn k ps).
Proof.
  revert k; induction ps as [|p ps IH]; intros k.
  - destruct k; reflexivity.
  - destruct k as [|k]; [apply transitions_same|].
    cbn [firstn skipn map app transitions]. rewrite IH.
    unfold newlyPassed. cbn [filter]. rewrite visitPipe_passed.
    unfold nowPassed, movePipe; simpl.
    destruct (pipe_passed p); simpl; [reflexivity|].
    destruct (_ <? _); reflexivity.
Qed.

Lemma playScoreSound_throws (g : Game num) :
  threw (playScoreSound g) = true -> audioCtx g = None.
Proof.
  unfold playScoreSound.
  destruct (negb (isTabActive g)); [discriminate|].
  destruct (MAX_CONCURRENT_SOUNDS <=? activeSounds g)%nat; [discriminate|].
  simpl. destruct (audioCtx g); [discriminate | reflexivity].
Qed.

(** [pipes.forEach] in full: it visits a prefix of the pipes; all of them
    when it returns; and when it ends in the sound routine, the pipe
    visited last is the one whose flag it has just set. *)
Lemma forEachPipe_visits scaler (g : Game num) ps :
  let c := fst (forEachPipe scaler g ps) in
  let ps' := snd (forEachPipe scaler g ps) in
  exists k, (k <= List.length ps)%nat
    /\ (threw c = false -> k = List.length ps)
    /\ (threw c = true ->
        audioCtx g = None
        /\ exists p, nth_error ps (Nat.pred k) = Some p /\ (0 < k)%nat
             /\ pipe_passed p = false
             /\ pipe_passed (visitPipe scaler (bird_x (bird g)) p) = true)
    /\ ps' = map (visitPipe scaler (bird_x (bird g))) (firstn k ps) ++ skipn k ps
    /\ score (outcome c)
       = (score g + Z.of_nat (newlyPassed scaler (bird_x (bird g)) (firstn k ps)))%Z.
Proof.
  revert g; induction ps as [|p ps IH]; intros g; simpl.
  - exists 0%nat; simpl. repeat split; try lia; discriminate.
  - unfold visitPipe, newlyPassed in *.
    destruct (nowPassed (bird_x (bird g)) (movePipe scaler p)) eqn:Hnow.
    + pose proof (playScoreSound_keeps (set_score (score g + 1) g)) as [Hk Hs].
      pose proof (playScoreSound_throws (set_score (score g + 1) g)) as Hthr.
      destruct (playScoreSound (set_score (score g + 1) g)) as [g1|g1] eqn:Hsound;
        simpl in Hk, Hs, Hthr.
      * specialize (IH (set_page (set_currentScoreText (score g1) (page g1)) g1)).
        destruct (forEachPipe scaler _ ps) as [c ps'] eqn:Hrec; simpl in *.
        destruct IH as (k & Hle & Hall & Hth & Hps & Hscore).
        assert (Hbx : bird_x (bird g1) = bird_x (bird g))
          by (destruct Hk as (_ & -> & _); reflexivity).
        assert (Hax : audioCtx g1 = audioCtx g)
          by (destruct Hk as (_ & _ & -> & _); reflexivity).
        exists (S k); simpl. rewrite Hnow; simpl.
        rewrite Hbx in Hps, Hscore, Hth.
        split; [lia|]. split; [intros Hc; f_equal; auto|].
        split.
        { intros Hc. destruct (Hth Hc) as (Ha & q & Hq & Hpos & Hq1 & Hq2).
          split; [congruence|]. exists q.
          destruct k as [|k]; [lia|]. simpl in *. repeat split; auto; lia. }
        split; [now f_equal|].
        rewrite Hscore, Hs; simpl. lia.
      * exists 1%nat; simpl. rewrite Hnow; simpl.
        split; [lia|]. split; [discriminate|].
        split.
        { intros _. split; [exact (Hthr eq_refl)|]. exists p.
          pose proof Hnow as Hnow'.
          unfold nowPassed, movePipe in Hnow'; simpl in Hnow'.
          apply andb_true_iff in Hnow' as [Hn1 Hn2].
          apply negb_true_iff in Hn1.
          split; [reflexivity|]. split; [lia|]. split; [exact Hn1|].
          rewrite Hnow. reflexivity. }
        split; [reflexivity|]. rewrite Hs; simpl; lia.
    + specialize (IH g).
      destruct (forEachPipe scaler g ps) as [c ps'] eqn:Hrec; simpl in *.
      destruct IH as (k & Hle & Hall & Hth & Hps & Hscore).
      exists (S k); simpl. rewrite Hnow; simpl.
      split; [lia|]. split; [intros Hc; f_equal; auto|].
      split.
      { intros Hc. destruct (Hth Hc) as (Ha & q & Hq & Hpos & Hq1 & Hq2).
        split; [exact Ha|]. exists q.
        destruct k as [|k]; [lia|]. simpl in *. repeat split; auto; lia. }
      split; [now f_equal | exact Hscore].
Qed.

(** Only a tick in play changes a pipe; a restart removes them all, and every
    other event leaves them as they are. *)
Lemma pipes_step (e : Event num) (g : Game num) :
  (exists timestamp rnd,
      e = Frame timestamp rnd /\ state g = PLAYING /\ shouldPause g = false)
  \/ pipes (outcome (step e g)) = pipes g
  \/ pipes (outcome (step e g)) = [].
Proof.
  destruct e; simpl; try (right; left; reflexivity).
  - unfold gameLoop. destruct (shouldPause g) eqn:P; [right; left; reflexivity|].
    destruct (state g) eqn:Hs.
    + right; left. rewrite update_READY by exact Hs. reflexivity.
    + left. exists timestamp, rnd. repeat split.
    + right; left. rewrite update_GAME_OVER by exact Hs. reflexivity.
  - unfold handleInput. destruct (shouldPause g); [right; left; reflexivity|].
    destruct (audioCtx g) as [[|]|]; destruct (state g) eqn:Hs; simpl;
      rewrite ?Hs; simpl; first [right; left; reflexivity | right; right; reflexivity].
  - right; right. reflexivity.
  - right; left. unfold visibilityChange; simpl. destruct (_ && _); reflexivity.
Qed.
Lemma gameOver_canvas (g : Game num) :
  dpr (gameOver g) = dpr g
  /\ canvas_width (page (gameOver g)) = canvas_width (page g).
Proof. unfold gameOver. destruct (js_gt _ _); split; reflexivity. Qed.

(** The pipes and the score after a tick in play, whether or not the sound
    routine throws. *)
Lemma update_PLAYING_pipes dt rnd (g : Game num) :
  state g = PLAYING ->
  let scaler := frameScaler (clampDt dt) in
  let c := update dt rnd g in
  exists spawned k,
    let before := pipes g ++ spawned in
    let after := map (visitPipe scaler (bird_x (bird g))) (firstn k before)
                 ++ skipn k before in
    (List.length spawned <= 1)%nat
    /\ Forall (fun pipe => pipe_passed pipe = false
                           /\ pipe_x pipe = canvas_width (page g) / dpr g)
              spawned
    /\ (k <= List.length before)%nat
    /\ (threw c = false -> k = List.length before)
    /\ (threw c = true ->
        audioCtx g = None
        /\ exists p, nth_error before (Nat.pred k) = Some p /\ (0 < k)%nat
             /\ pipe_passed p = false
             /\ pipe_passed (visitPipe scaler (bird_x (bird g)) p) = true)
    /\ pipes (outcome c) = (if threw c then after else filter onScreen after)
    /\ score (outcome c)
       = (score g
          + Z.of_nat (newlyPassed scaler (bird_x (bird g)) (firstn k before)))%Z
    /\ bird_x (bird (outcome c)) = bird_x (bird g)
    /\ dpr (outcome c) = dpr g
    /\ canvas_width (page (outcome c)) = canvas_width (page g).
Proof.
  intros Hplay scaler c. subst c. unfold update. rewrite Hplay.
  fold scaler.
  set (g1 := set_spawnTimer _ (set_bgOffsets _ (set_bird _ g))).
  set (g2 := if spawnTimer g1 >? PIPE_SPAWN_RATE
             then set_spawnTimer (lit 0) (spawnPipe rnd g1) else g1).
  assert (H2 : bird_x (bird g2) = bird_x (bird g)
               /\ audioCtx g2 = audioCtx g
               /\ dpr g2 = dpr g
               /\ canvas_width (page g2) = canvas_width (page g)
               /\ score g2 = score g
               /\ exists spawned, (List.length spawned <= 1)%nat
                    /\ Forall (fun pipe => pipe_passed pipe = false
                                 /\ pipe_x pipe = canvas_width (page g) / dpr g)
                              spawned
                    /\ pipes g2 = pipes g ++ spawned).
  { subst g2. destruct (_ <? _); simpl;
      (split; [apply bird_x_updateBird|]); repeat split.
    - eexists [_]; split; [simpl; lia|]. split; [|reflexivity].
      constructor; [split; reflexivity | constructor].
    - exists []; split; [simpl; lia|]. split; [constructor|].
      now rewrite app_nil_r. }
  destruct H2 as (Hb2 & Ha2 & Hd2 & Hc2 & Hsc2 & spawned & Hlen & Hsp & Hp2).
  clearbody g2. clear g1.
  pose proof (forEachPipe_spec scaler g2 (pipes g2)) as Hkeeps.
  pose proof (forEachPipe_visits scaler g2 (pipes g2)) as Hloop.
  pose proof (forEachPipe_more scaler g2 (pipes g2)) as Hmore.
  destruct (forEachPipe scaler g2 (pipes g2)) as [c ps'].
  simpl in Hkeeps, Hloop, Hmore.
  destruct Hkeeps as ((_ & Hb & _) & _).
  destruct Hloop as (k & Hk & Hall & Hth & Hps & Hscore).
  destruct Hmore as (Hf & _).
  destruct Hf as (_ & _ & _ & _ & _ & _ & _ & Hd & _ & Hc & _).
  rewrite Hp2, Hb2, Ha2 in *.
  exists spawned, k. cbv zeta.
  split; [exact Hlen|]. split; [exact Hsp|]. split; [exact Hk|].
  destruct c as [g3|g3]; cbn [outcome threw fst snd] in *.
  - split; [intros _; now apply Hall|]. split; [discriminate|].
    assert (Hx : bird_x (bird g3) = bird_x (bird g)) by congruence.
    match goal with
    | |- context [checkCollision ?x] =>
        destruct (checkCollision_cases x) as [-> | ->];
        [rewrite pipes_gameOver, score_gameOver, bird_gameOver;
         destruct (gameOver_canvas x) as [-> ->]|]
    end.
    + simpl. repeat split; congruence.
    + simpl. repeat split; congruence.
  - split; [exact Hall|]. split; [exact Hth|].
    assert (Hx : bird_x (bird g3) = bird_x (bird g)) by congruence.
    simpl. repeat split; congruence.
Qed.

End PassedProps.

Section PassedLists.
Context {num : Type} {N : JSNumber num}.
Local Open Scope js_scope.

(** Visiting a prefix of pipes none of which is behind the bird uncounted:
    every flag afterwards is the old flag or the test of the pipe's place
    afterwards, and again no pipe behind the bird is uncounted. *)
Lemma visited_flags scaler birdX (ps : list (Pipe num)) k :
  Forall (fun pipe => (pipe_x pipe + PIPE_WIDTH <? birdX) = true ->
                      pipe_passed pipe = true) ps ->
  let after := map (visitPipe scaler birdX) (firstn k ps) ++ skipn k ps in
  Forall2 (fun p p' =>
             pipe_passed p' = pipe_passed p || (pipe_x p' + PIPE_WIDTH <? birdX))
          ps after
  /\ Forall (fun pipe => (pipe_x pipe + PIPE_WIDTH <? birdX) = true ->
                         pipe_passed pipe = true) after.
Proof.
  intros Hex. cbv zeta. revert k.
  induction Hex as [|p ps Hp Hex IH]; intros k.
  - destruct k; split; constructor.
  - destruct k as [|k]; cbn [firstn skipn map app].
    + split; [|constructor; assumption].
      constructor.
      * destruct (pipe_passed p) eqn:E; [reflexivity|].
        destruct (_ <? _) eqn:E2; [|reflexivity].
        specialize (Hp eq_refl). discriminate Hp.
      * destruct (IH 0%nat) as [H _]. exact H.
    + destruct (IH k) as [H1 H2]. split.
      * constructor; [apply visitPipe_flag | exact H1].
      * constructor; [|exact H2].
        intros Hb. rewrite visitPipe_flag, Hb. apply orb_true_r.
Qed.

End PassedLists.

Section PassedRational.
Variable qsin : Q -> Q.
#[local] Hint Extern 0 (JSNumber Q) => exact (Q_number qsin) : typeclass_instances.
Local Open Scope Q_scope.

Lemma orElse_pos (a b : Q) : 0 <= a -> 0 < b -> 0 < orElse a b.
Proof.
  intros Ha Hb. unfold orElse. cbn [eqb lit Q_number].
  destruct (Qeq_bool a 0) eqn:E; [exact Hb|].
  apply Qeq_bool_neq in E. lra.
Qed.

Lemma flagsInv_init reducedMotion hidden devicePixelRatio w h (markup : Page Q) :
  0 <= devicePixelRatio -> 0 <= w ->
  flagsInv qsin (init reducedMotion hidden devicePixelRatio w h markup).
Proof.
  intros Hd Hw.
  assert (H1 : 0 < orElse devicePixelRatio (lit 1))
    by (apply orElse_pos; [exact Hd | reflexivity]).
  assert (H2 : 0 < orElse w (lit 320))
    by (apply orElse_pos; [exact Hw | reflexivity]).
  unfold flagsInv, flagsExact, init, setupHiDPI.
  set (d := orElse devicePixelRatio (lit 1)) in *.
  set (cw := orElse w (lit 320)) in *. clearbody d cw.
  cbn -[Qmult Qle Qlt].
  destruct (reducedMotion && _); cbn -[Qmult Qle Qlt];
    (split; [reflexivity|]; split; [exact H1|]; split; [|apply Forall_nil]);
    apply Qmult_le_0_compat; lra.
Qed.

Lemma spawn_not_behind (g : Game Q) (pipe : Pipe Q) :
  flagsInv qsin g ->
  pipe_passed pipe = false /\ pipe_x pipe = (canvas_width (page g) / dpr g)%js ->
  ltb (add (pipe_x pipe) PIPE_WIDTH) (bird_x (bird g)) = true ->
  pipe_passed pipe = true.
Proof.
  intros (Hx & Hd & Hc & _) [_ Hpx] Hb. exfalso.
  apply (Qltb_true qsin) in Hb. rewrite Hpx, Hx in Hb.
  unfold PIPE_WIDTH in Hb. cbn [add div lit Q_number] in Hb.
  assert (H0 : 0 <= canvas_width (page g) / dpr g).
  { apply Qle_shift_div_l; [exact Hd | lra]. }
  lra.
Qed.

Lemma flagsInv_update dt rnd (g : Game Q) :
  flagsInv qsin g -> flagsInv qsin (outcome (update dt rnd g)).
Proof.
  intros Hinv. destruct (state g) eqn:Hs.
  - rewrite update_READY by exact Hs. exact Hinv.
  - destruct (update_PLAYING_pipes dt rnd g Hs)
      as (spawned & k & Hlen & Hsp & Hk & Hall & _ & Hps & _ & Hbx & Hd & Hc).
    cbv zeta in *.
    destruct Hinv as (Hx & Hdp & Hcw & Hex).
    assert (Hbefore :
              Forall (fun pipe =>
                        ltb (add (pipe_x pipe) PIPE_WIDTH) (bird_x (bird g)) = true ->
                        pipe_passed pipe = true) (pipes g ++ spawned)).
    { apply Forall_app. split; [exact Hex|].
      eapply Forall_impl; [|exact Hsp].
      intros p Hp. apply spawn_not_behind; [|exact Hp]. repeat split; assumption. }
    destruct (visited_flags (frameScaler (clampDt dt)) (bird_x (bird g))
                (pipes g ++ spawned) k Hbefore) as [_ Hafter].
    unfold flagsInv, flagsExact. rewrite Hbx, Hd, Hc, Hps.
    split; [exact Hx|]. split; [exact Hdp|]. split; [exact Hcw|].
    destruct (threw _); [exact Hafter|].
    apply Forall_forall. intros p Hp. apply filter_In in Hp as [Hp _].
    exact (proj1 (Forall_forall _ _) Hafter p Hp).
  - rewrite update_GAME_OVER by exact Hs. exact Hinv.
Qed.

Lemma flagsInv_step (g : Game Q) (e : Event Q) :
  flagsInv qsin g -> hostEvent e = true -> flagsInv qsin (outcome (step e g)).
Proof.
  intros Hinv He. destruct e; simpl.
  - unfold gameLoop. destruct (shouldPause g); [exact Hinv|].
    apply flagsInv_update. exact Hinv.
  - unfold handleInput. destruct (shouldPause g); [exact Hinv|].
    destruct Hinv as (Hx & Hd & Hc & Hex).
    destruct (audioCtx g) as [[|]|]; destruct (state g) eqn:Hs; simpl;
      rewrite ?Hs; simpl; unfold flagsInv, flagsExact; simpl;
      repeat split; first [assumption | constructor].
  - destruct Hinv as (Hx & Hd & Hc & Hex).
    unfold flagsInv, flagsExact; simpl. repeat split; first [assumption | constructor].
  - exact Hinv.
  - unfold visibilityChange; simpl. destruct (_ && _); exact Hinv.
  - destruct Hinv as (Hx & Hd & Hc & Hex).
    simpl in He. apply Qle_bool_iff in He.
    assert (H2 : 0 < orElse rectWidth (lit 320))
      by (apply orElse_pos; [exact He | reflexivity]).
    unfold flagsInv, flagsExact, setupHiDPI.
    set (cw := orElse rectWidth (lit 320)) in *. clearbody cw.
    cbn -[Qmult Qle Qlt].
    split; [exact Hx|]. split; [exact Hd|]. split; [|exact Hex].
    apply Qmult_le_0_compat; lra.
  - exact Hinv.
Qed.

Lemma flagsInv_run (es : list (Event Q)) (g : Game Q) :
  flagsInv qsin g -> forallb hostEvent es = true -> flagsInv qsin (run es g).
Proof.
  revert g; induction es as [|e es IH]; intros g Hinv Hes; simpl in *; [exact Hinv|].
  apply andb_true_iff in Hes as [He Hes].
  apply IH; [now apply flagsInv_step | exact Hes].
Qed.

(** C6. The passed flag in a tick of play, from any state the page reaches
    through events as a browser delivers them (inputs, clicks, frames,
    timeouts and visibility changes in any order, resizes to a width that
    is not negative).  The loop visits the pipes in order: all of them
    whenever an audio context exists, and whenever the tick returns;
    otherwise up to and including the pipe whose flag it has just set, where
    the sound routine throws.  A pipe is spawned uncounted.  Before the
    tick no uncounted pipe is behind the bird; after it the flag of every
    pipe, visited or not, is its old flag or the test that its right edge
    is left of the bird at its new place.  So a flag goes from false to true
    exactly in the tick in which the edge passes the bird, never back, hence
    at most once; and the score rises by the number of flags that went from
    false to true, by nothing else, also in a tick that throws.  No other
    event changes a pipe: it leaves the pipes as they are, or (a restart)
    removes them all. *)
Theorem C6_passed_flag
  reducedMotion hidden devicePixelRatio w h (markup : Page Q)
  (es : list (Event Q)) (dt rnd : Q) :
  0 <= devicePixelRatio -> 0 <= w -> forallb hostEvent es = true ->
  let g := run es (init reducedMotion hidden devicePixelRatio w h markup) in
  state g = PLAYING ->
  let c := update dt rnd g in
  let scaler := frameScaler (clampDt dt) in
  let birdX := bird_x (bird g) in
  exists spawned k,
    let before := pipes g ++ spawned in
    let after := map (visitPipe scaler birdX) (firstn k before)
                 ++ skipn k before in
    (List.length spawned <= 1)%nat
    /\ Forall (fun p => pipe_passed p = false) spawned
    /\ (k <= List.length before)%nat
    /\ (threw c = false -> k = List.length before)
    /\ (forall ctx, audioCtx g = Some ctx -> threw c = false)
    /\ (threw c = true ->
        audioCtx g = None
        /\ exists p, nth_error before (Nat.pred k) = Some p /\ (0 < k)%nat
             /\ pipe_passed p = false
             /\ pipe_passed (visitPipe scaler birdX p) = true)
    /\ pipes (outcome c) = (if threw c then after else filter onScreen after)
    /\ Forall (fun p => pipe_passed p = false ->
                        ltb (add (pipe_x p) PIPE_WIDTH) birdX = false)
              before
    /\ Forall2 (fun p p' =>
                  pipe_passed p'
                  = pipe_passed p || ltb (add (pipe_x p') PIPE_WIDTH) birdX)
               before after
    /\ score (outcome c) = (score g + Z.of_nat (transitions before after))%Z
    /\ bird_x (bird (outcome c)) = birdX
    /\ flagsExact (outcome c)
    /\ (forall (e : Event Q) (g0 : Game Q),
          (exists timestamp rnd0,
              e = Frame timestamp rnd0 /\ state g0 = PLAYING
              /\ shouldPause g0 = false)
          \/ pipes (outcome (step e g0)) = pipes g0
          \/ pipes (outcome (step e g0)) = []).
Proof.
  intros Hd Hw Hes g Hplay c scaler birdX.
  assert (Hinv : flagsInv qsin g).
  { apply flagsInv_run; [now apply flagsInv_init | exact Hes]. }
  destruct (update_PLAYING_pipes dt rnd g Hplay)
    as (spawned & k & Hlen & Hsp & Hk & Hall & Hth & Hps & Hsc & Hbx & _).
  cbv zeta in *. fold c scaler birdX in Hall, Hth, Hps, Hsc, Hbx.
  assert (Hbefore : Forall (fun pipe =>
                              ltb (add (pipe_x pipe) PIPE_WIDTH) birdX = true ->
                              pipe_passed pipe = true) (pipes g ++ spawned)).
  { apply Forall_app. split; [apply Hinv|].
    eapply Forall_impl; [|exact Hsp].
    intros p Hp. apply spawn_not_behind; [exact Hinv | exact Hp]. }
  destruct (visited_flags scaler birdX (pipes g ++ spawned) k Hbefore)
    as [Hflags _].
  exists spawned, k.
  split; [exact Hlen|].
  split; [eapply Forall_impl; [|exact Hsp]; intros p Hp; apply Hp|].
  split; [exact Hk|]. split; [exact Hall|].
  split.
  { intros ctx Hctx.
    destruct (update_PLAYING dt rnd g Hplay) as (_ & _ & _ & _ & Hret & _).
    apply Hret. congruence. }
  split; [exact Hth|].
  split; [exact Hps|].
  split.
  { eapply Forall_impl; [|exact Hbefore].
    intros p Hp Hf. cbv beta in Hp. destruct (ltb _ _) eqn:E; [|reflexivity].
    specialize (Hp eq_refl). congruence. }
  split; [exact Hflags|].
  split; [rewrite transitions_visited; exact Hsc|].
  split; [exact Hbx|].
  split; [apply (flagsInv_update dt rnd g Hinv)|].
  intros e g0. apply pipes_step.
Qed.

End PassedRational.

(** ** The ground band *)

Lemma flat_map_pairs {A B : Type} (f : A -> list B) (l : list A) :
  (forall a, List.length (f a) = 2%nat) ->
  List.length (flat_map f l) = (2 * List.length l)%nat.
Proof.
  intros Hf. induction l as [|a l IH]; [reflexivity|].
  cbn [flat_map]. rewrite length_app, Hf, IH. simpl; lia.
Qed.

Section GroundBand.
Local Open Scope Q_scope.

(** A remainder whose dividend is negative is not positive. *)
Lemma jsRem_nonpos (a b : Q) : a < 0 -> 0 < b -> jsRem a b <= 0.
Proof.
  intros Ha Hb. unfold jsRem, truncate.
  assert (Hq : a / b < 0).
  { apply Qlt_shift_div_r; [exact Hb | lra]. }
  destruct (Qle_bool 0 (a / b)) eqn:E; [apply Qle_bool_iff in E; lra|].
  pose proof (Qle_ceiling (a / b)) as Hc.
  assert (Hm : a / b * b <= inject_Z (Qceiling (a / b)) * b).
  { apply Qmult_le_compat_r; [exact Hc | lra]. }
  assert (Hab : a / b * b == a) by (field; intros F; lra).
  lra.
Qed.

(** Once the offset has reached w + 2 tileWidth the dividend of every
    tile's remainder is negative. *)
Lemma tile_dividend_neg (i : nat) (tileWidth offset w : Q) :
  0 < tileWidth -> 0 < w -> w + 2 * tileWidth <= offset ->
  (i < tileCount tileWidth w)%nat ->
  inject_Z (Z.of_nat i) * tileWidth - offset < 0.
Proof.
  intros Htw Hw Hoff Hi. unfold tileCount in *.
  pose proof (Qceiling_lt (w / tileWidth)) as Hc.
  unfold Z.sub in Hc. rewrite inject_Z_plus in Hc.
  change (inject_Z (- (1))) with (-1 # 1) in Hc.
  set (c := Qceiling (w / tileWidth)) in *.
  set (q := w / tileWidth) in *.
  assert (Hiz : (Z.of_nat i <= c + 1)%Z) by lia.
  assert (Hiq : inject_Z (Z.of_nat i) <= inject_Z c + 1).
  { change (inject_Z (Z.of_nat i) <= inject_Z c + inject_Z 1).
    rewrite <- inject_Z_plus, <- Zle_Qle. exact Hiz. }
  assert (Hlt : inject_Z (Z.of_nat i) * tileWidth < w + 2 * tileWidth).
  { assert (H1 : inject_Z (Z.of_nat i) < q + 2) by lra.
    assert (H2 : inject_Z (Z.of_nat i) * tileWidth < (q + 2) * tileWidth)
      by (apply Qmult_lt_compat_r; assumption).
    assert (H3 : (q + 2) * tileWidth == w + 2 * tileWidth)
      by (subst q; field; intros F; lra).
    lra. }
  lra.
Qed.

Lemma tileX_nonpos (i : nat) (tileWidth offset w : Q) :
  0 < tileWidth -> 0 < w -> w + 2 * tileWidth <= offset ->
  (i < tileCount tileWidth w)%nat ->
  tileX i tileWidth offset w <= 0.
Proof.
  intros Htw Hw Hoff Hi. unfold tileX.
  set (a := inject_Z (Z.of_nat i) * tileWidth - offset).
  assert (Ha : a < 0) by (now apply (tile_dividend_neg i tileWidth offset w)).
  pose proof (jsRem_nonpos a (w + tileWidth) Ha ltac:(lra)) as Hr.
  pose proof (Qfloor_le (jsRem a (w + tileWidth))) as Hf.
  lra.
Qed.

(** A remainder whose dividend is negative stays above minus the divisor. *)
Lemma jsRem_lower (a b : Q) : a < 0 -> 0 < b -> - b < jsRem a b.
Proof.
  intros Ha Hb. unfold jsRem, truncate.
  assert (Hq : a / b < 0).
  { apply Qlt_shift_div_r; [exact Hb | lra]. }
  destruct (Qle_bool 0 (a / b)) eqn:E; [apply Qle_bool_iff in E; lra|].
  pose proof (Qceiling_lt (a / b)) as Hc.
  unfold Z.sub in Hc. rewrite inject_Z_plus in Hc.
  change (inject_Z (- (1))) with (-1 # 1) in Hc.
  set (c := inject_Z (Qceiling (a / b))) in *.
  assert (Hm : (c + (-1 # 1)) * b < a / b * b).
  { apply Qmult_lt_compat_r; [exact Hb | exact Hc]. }
  assert (Hab : a / b * b == a) by (field; intros F; lra).
  lra.
Qed.

Lemma tileXs_left (tileWidth w offset : Q) :
  0 < tileWidth -> 0 < w -> w + 2 * tileWidth <= offset ->
  Forall (fun x => - (w + tileWidth) - 1 < x /\ x <= 0)
         (tileXs tileWidth w offset).
Proof.
  intros Htw Hw Hoff. apply Forall_forall. intros x Hx.
  apply in_map_iff in Hx as (i & <- & Hi). apply in_seq in Hi.
  split; [|apply tileX_nonpos; [exact Htw | exact Hw | exact Hoff | lia]].
  unfold tileX.
  set (a := inject_Z (Z.of_nat i) * tileWidth - offset).
  assert (Ha : a < 0)
    by (apply (tile_dividend_neg i tileWidth offset w); [assumption .. | lia]).
  pose proof (jsRem_lower a (w + tileWidth) Ha ltac:(lra)) as Hr.
  pose proof (Qlt_floor (jsRem a (w + tileWidth))) as Hf.
  rewrite inject_Z_plus in Hf. change (inject_Z 1) with 1 in Hf. lra.
Qed.

(** X16. The ground's stripes do not wrap around: [%] keeps the sign of its
    dividend, so once the scroll offset has reached w + 80 every tile is
    drawn at an abscissa that is not positive, and both of its stripes end
    at or before abscissa 40.  The band itself is still drawn, with two
    stripes for each of the ceil(w / 40) + 2 tiles. *)
Theorem ground_stripes_stay_left (w h offset : Q) :
  0 < w -> w + 80 <= offset ->
  List.length (drawGround w h offset) = S (2 * tileCount 40 w)
  /\ Forall (fun r => rect_colour r = 1%nat /\ rect_x r + rect_w r <= 40)
            (tl (drawGround w h offset)).
Proof.
  intros Hw Hoff. unfold drawGround. cbv zeta. cbn [tl List.length]. split.
  - f_equal. rewrite flat_map_pairs by reflexivity. now rewrite length_seq.
  - apply Forall_forall. intros r Hr. apply in_flat_map in Hr.
    destruct Hr as (i & Hi & Hr). apply in_seq in Hi.
    assert (Hx : tileX i 40 offset w <= 0).
    { apply tileX_nonpos; [reflexivity | exact Hw | lra | lia]. }
    change (inject_Z (Qfloor (40 / 2))) with 20 in Hr.
    destruct Hr as [<- | [<- | []]]; cbn [rect_colour rect_x rect_w];
      (split; [reflexivity | lra]).
Qed.

(** X21. Clouds, hills and trees do not wrap around either: once a layer's
    offset has reached w + 2 tileWidth (tiles 60, 80 and 30 wide), every
    tile of the layer is drawn at an abscissa in (-(w + tileWidth) - 1, 0],
    so nothing of the layer starts right of the left edge. *)
Theorem layers_stay_left (w offset : Q) :
  0 < w ->
  (w + 120 <= offset ->
   Forall (fun x => - (w + 60) - 1 < x /\ x <= 0) (cloudXs w offset))
  /\ (w + 160 <= offset ->
      Forall (fun x => - (w + 80) - 1 < x /\ x <= 0) (hillXs w offset))
  /\ (w + 60 <= offset ->
      Forall (fun x => - (w + 30) - 1 < x /\ x <= 0) (treeXs w offset)).
Proof.
  intros Hw. split; [|split]; intros Hoff;
    apply tileXs_left; first [reflexivity | exact Hw | lra].
Qed.
End GroundBand.

(** ** The page scripts *)

Lemma supported_cases p :
  supported p = true -> p = "zh"%string \/ p = "en"%string \/ p = "ja"%string.
Proof.
  unfold supported. intros H.
  apply orb_true_iff in H as [H | H]; [apply orb_true_iff in H as [H | H]|];
    apply String.eqb_eq in H; auto.
Qed.

Lemma beforeHyphen_app p rest :
  beforeHyphen p = p -> beforeHyphen (String.append p (String "-" rest)) = p.
Proof.
  induction p as [|c p IH]; simpl; [reflexivity|].
  destruct (Ascii.eqb c "-"); [discriminate|].
  intros [= H]. f_equal. now apply IH.
Qed.

Lemma supported_iff p :
  supported p = true <-> p = "zh"%string \/ p = "en"%string \/ p = "ja"%string.
Proof.
  split; [apply supported_cases|].
  intros [-> | [-> | ->]]; reflexivity.
Qed.

Lemma detectLanguage_prefix (s : string) :
  detectLanguage (Some s)
  = if supported (toLowerCase (beforeHyphen s))
    then toLowerCase (beforeHyphen s) else "zh"%string.
Proof. destruct s; reflexivity. Qed.

(** X17. The detected language is the part of the browser language before
    its first hyphen, in lower case, when that is zh, en or ja, and zh
    otherwise (also when the browser gives none): so it is always one of the
    three, zh-, en- and ja- with any region give zh, en and ja, EN-us gives
    en and fr-FR gives zh.  A region suffix does not matter, and detecting
    from a detected language gives it back. *)
Theorem detectLanguage_supported (language : option string) :
  (detectLanguage language = "zh" \/ detectLanguage language = "en"
   \/ detectLanguage language = "ja")%string
  /\ detectLanguage (Some (detectLanguage language)) = detectLanguage language
  /\ (forall p region, beforeHyphen p = p ->
        detectLanguage (Some (String.append p (String "-" region)))
        = detectLanguage (Some p))
  /\ detectLanguage None = "zh"%string
  /\ (forall s p, toLowerCase (beforeHyphen s) = p ->
        (p = "zh" \/ p = "en" \/ p = "ja")%string ->
        detectLanguage (Some s) = p)
  /\ (forall s, toLowerCase (beforeHyphen s) <> "zh"%string ->
        toLowerCase (beforeHyphen s) <> "en"%string ->
        toLowerCase (beforeHyphen s) <> "ja"%string ->
        detectLanguage (Some s) = "zh"%string)
  /\ (forall region,
        detectLanguage (Some (String.append "zh" (String "-" region))) = "zh"%string
        /\ detectLanguage (Some (String.append "en" (String "-" region))) = "en"%string
        /\ detectLanguage (Some (String.append "ja" (String "-" region))) = "ja"%string)
  /\ detectLanguage (Some "EN-us"%string) = "en"%string
  /\ detectLanguage (Some "ja"%string) = "ja"%string
  /\ detectLanguage (Some "fr-FR"%string) = "zh"%string.
Proof.
  assert (H3 : (detectLanguage language = "zh" \/ detectLanguage language = "en"
                \/ detectLanguage language = "ja")%string).
  { unfold detectLanguage. destruct (supported _) eqn:E; [|auto].
    now apply supported_cases. }
  assert (Hsuffix : forall p region, beforeHyphen p = p ->
            detectLanguage (Some (String.append p (String "-" region)))
            = detectLanguage (Some p)).
  { intros p region Hp. rewrite !detectLanguage_prefix.
    rewrite (beforeHyphen_app _ region Hp), Hp. reflexivity. }
  split; [exact H3|]. split; [destruct H3 as [-> | [-> | ->]]; reflexivity|].
  split; [exact Hsuffix|]. split; [reflexivity|].
  split.
  { intros s p Hp Hin. rewrite detectLanguage_prefix, Hp.
    rewrite (proj2 (supported_iff p) Hin). reflexivity. }
  split.
  { intros s H1 H2 H4. rewrite detectLanguage_prefix.
    destruct (supported _) eqn:E; [|reflexivity].
    apply supported_cases in E. destruct E as [E | [E | E]]; contradiction. }
  split.
  { intros region. repeat split; rewrite Hsuffix; reflexivity. }
  repeat split.
Qed.

(** ** Properties of the page scripts *)

Section PageScripts.
Local Open Scope Q_scope.

Lemma updateParallax_gap w h p :
  targetOf (mouseX p) w - currentX (updateParallax w h p)
  == (9 # 10) * (targetOf (mouseX p) w - currentX p)
  /\ targetOf (mouseY p) h - currentY (updateParallax w h p)
     == (9 # 10) * (targetOf (mouseY p) h - currentY p).
Proof. unfold updateParallax, targetOf; simpl. split; field. Qed.

(** X18. The avatar eases towards its target without ever passing it: with the
    mouse and the window unchanged, each frame leaves nine tenths of the
    remaining distance, so after n frames (9/10)^n of it is left. *)
Theorem parallax_eases_to_target (n : nat) (w h : Q) (p : Parallax) :
  let p' := parallaxFrames n w h p in
  mouseX p' = mouseX p /\ mouseY p' = mouseY p
  /\ targetOf (mouseX p) w - currentX p'
     == (9 # 10) ^ Z.of_nat n * (targetOf (mouseX p) w - currentX p)
  /\ targetOf (mouseY p) h - currentY p'
     == (9 # 10) ^ Z.of_nat n * (targetOf (mouseY p) h - currentY p)
  /\ Qabs (targetOf (mouseX p) w - currentX p')
     <= Qabs (targetOf (mouseX p) w - currentX p)
  /\ Qabs (targetOf (mouseY p) h - currentY p')
     <= Qabs (targetOf (mouseY p) h - currentY p).
Proof.
  revert p. induction n as [|n IH]; intros p.
  - simpl. repeat split; try ring; apply Qle_refl.
  - cbn [parallaxFrames]. cbv zeta.
    destruct (IH (updateParallax w h p)) as (Hx & Hy & Hgx & Hgy & Hax & Hay).
    destruct (updateParallax_gap w h p) as [Gx Gy].
    change (mouseX (updateParallax w h p)) with (mouseX p) in *.
    change (mouseY (updateParallax w h p)) with (mouseY p) in *.
    assert (Hpow : (9 # 10) ^ Z.of_nat (S n) == (9 # 10) ^ Z.of_nat n * (9 # 10)).
    { rewrite Nat2Z.inj_succ. unfold Z.succ.
      rewrite Qpower_plus by discriminate. reflexivity. }
    split; [exact Hx|]. split; [exact Hy|].
    split; [rewrite Hgx, Gx, Hpow; ring|].
    split; [rewrite Hgy, Gy, Hpow; ring|].
    assert (Hshrink : forall d, Qabs ((9 # 10) * d) <= Qabs d).
    { intros d. rewrite Qabs_Qmult. change (Qabs (9 # 10)) with (9 # 10).
      pose proof (Qabs_nonneg d). lra. }
    split.
    + eapply Qle_trans; [exact Hax|]. rewrite Gx. apply Hshrink.
    + eapply Qle_trans; [exact Hay|]. rewrite Gy. apply Hshrink.
Qed.

End PageScripts.

Lemma autoplayTicks_mod (k slides i : nat) :
  (0 < slides)%nat ->
  autoplayTicks (S k) slides i = ((i + S k) mod slides)%nat.
Proof.
  intros Hn. revert i. induction k as [|k IH]; intros i.
  - reflexivity.
  - change (autoplayTicks (S (S k)) slides i)
      with (autoplayTicks (S k) slides (autoplayTick slides i)).
    rewrite IH. unfold autoplayTick.
    rewrite Nat.Div0.add_mod_idemp_l. f_equal. lia.
Qed.

(** X19. With at least one slide the autoplay index is a valid slide after every
    tick, it advances by one slide per tick and wraps after the last: after
    k ticks from slide i it is (i + k) mod slides, so it is back at slide i
    after as many ticks as there are slides. *)
Theorem autoplay_cycles (slides k i : nat) :
  (0 < slides)%nat ->
  (autoplayTicks (S k) slides i < slides)%nat
  /\ autoplayTicks (S k) slides i = ((i + S k) mod slides)%nat
  /\ ((i < slides)%nat -> autoplayTicks slides slides i = i).
Proof.
  intros Hn. rewrite autoplayTicks_mod by exact Hn.
  split; [apply Nat.mod_upper_bound; lia|]. split; [reflexivity|].
  intros Hi. destruct slides as [|s]; [lia|].
  rewrite autoplayTicks_mod by lia.
  rewrite <- Nat.Div0.add_mod_idemp_r, Nat.Div0.mod_same, Nat.add_0_r.
  now apply Nat.mod_small.
Qed.
Lemma remove_single (id : nat) : remove Nat.eq_dec id [id] = [].
Proof. simpl. destruct (Nat.eq_dec id id); [reflexivity | congruence]. Qed.

Lemma clearNext_pending m :
  meteorInv m -> pending (clearNext m) = [] /\ isPaused (clearNext m) = isPaused m.
Proof.
  intros [Hp Hn]. unfold clearNext.
  destruct (isPaused m) eqn:E.
  - destruct (timerId m); simpl; rewrite ?(Hp eq_refl); auto.
  - destruct (Hn eq_refl) as (id & Hpen & Hid). rewrite Hid; simpl.
    rewrite Hpen, remove_single. auto.
Qed.

Lemma scheduleNextMeteor_inv m :
  pending (clearNext m) = [] -> meteorInv (scheduleNextMeteor m).
Proof.
  intros Hc. unfold scheduleNextMeteor, meteorInv.
  destruct (isPaused (clearNext m)) eqn:E; simpl.
  - rewrite E. split; [intros _; exact Hc | discriminate].
  - rewrite Hc. split; [intros H; congruence | intros _; eauto].
Qed.

(** X20. Meteors never pile up and never stop: while the page is visible exactly
    one timeout for the next meteor is pending, the one [timerId] names,
    and while it is hidden none is. *)
Theorem one_meteor_timeout_pending (hidden : bool) (freeId : nat) (m : Meteors) :
  meteorReachable (initMeteors hidden freeId) m ->
  (isPaused m = true -> pending m = [])
  /\ (isPaused m = false -> exists id, pending m = [id] /\ timerId m = Some id)
  /\ (List.length (pending m) <= 1)%nat.
Proof.
  intros Hr.
  assert (Hinv : meteorInv m).
  { induction Hr as [|m e Hr IH Hen].
    - apply scheduleNextMeteor_inv. reflexivity.
    - destruct e as [id | hid]; simpl in *.
      + destruct IH as [Hp Hn]. destruct (isPaused m) eqn:E.
        * rewrite (Hp eq_refl) in Hen. destruct Hen.
        * destruct (Hn eq_refl) as (id' & Hpen & Hid).
          rewrite Hpen in Hen. destruct Hen as [<- | []].
          unfold meteorTimeout. apply scheduleNextMeteor_inv.
          unfold clearNext; simpl. rewrite Hid; simpl.
          rewrite Hpen, remove_single. reflexivity.
      + unfold meteorVisibility; simpl.
        assert (Hc : pending (clearNext
                                {| timerId := timerId m; isPaused := hid;
                                   pending := pending m; nextId := nextId m;
                                   spawned := spawned m |}) = []).
        { destruct (clearNext_pending m IH) as [Hc _].
          unfold clearNext in *; simpl. destruct (timerId m); exact Hc. }
        destruct hid.
        * split; [intros _; exact Hc|].
          unfold clearNext; simpl. destruct (timerId m); simpl; discriminate.
        * now apply scheduleNextMeteor_inv. }
  destruct Hinv as [Hp Hn]. split; [exact Hp|]. split; [exact Hn|].
  destruct (isPaused m).
  - rewrite (Hp eq_refl). simpl; lia.
  - destruct (Hn eq_refl) as (id & -> & _). simpl; lia.
Qed.

Section MoreRuns.
#[local] Existing Instance QN.
Local Open Scope Q_scope.

Lemma reachable_demoAfterScore : reachable demoStart demoAfterScore.
Proof.
  exact (reach_step demoStart demoBeforeScore (Frame 1900 0.1)
           reachable_demoBeforeScore eq_refl).
Qed.

Lemma reachable_demoReducedLater : reachable demoReduced demoReducedLater.
Proof. apply reachable_run; [apply reach_start | vm_compute; reflexivity]. Qed.

Lemma stored_best_score_agrees_witness :
  initBestScore (storage (page demoGameOver)) = bestScore demoGameOver.
Proof.
  exact (stored_best_score_agrees false false 1 320 480 demoMarkup demoGameOver
           reachable_demoGameOver).
Defined.

Lemma sound_counter_within_cap_witness :
  soundTimers demoMarkup = 0%nat
  /\ (activeSounds demoAfterScore <= 3)%nat
  /\ (soundTimers (page demoAfterScore) <= activeSounds demoAfterScore)%nat.
Proof.
  split; [reflexivity|].
  exact (sound_counter_within_cap false false 1 320 480 demoMarkup demoAfterScore
           eq_refl reachable_demoAfterScore).
Defined.

Lemma overlay_shown_iff_game_over_witness :
  state demoGameOver = GAME_OVER
  /\ restartHidden (page demoGameOver) = false
  /\ overlayHidden (page demoGameOver) = restartHidden (page demoGameOver).
Proof.
  pose proof (overlay_shown_iff_game_over false false 1 320 480 demoMarkup
                demoGameOver eq_refl eq_refl reachable_demoGameOver) as [H1 H2].
  assert (Hs : state demoGameOver = GAME_OVER) by reflexivity.
  split; [exact Hs|]. split; [exact (proj2 H2 Hs) | exact H1].
Defined.

Lemma score_displays_agree_witness :
  currentScoreText demoMarkup = 0%Z
  /\ currentScoreText (page demoAfterScore) = score demoAfterScore
  /\ bestScoreText (page demoAfterScore) = bestScore demoAfterScore.
Proof.
  split; [reflexivity|].
  exact (score_displays_agree false false 1 320 480 demoMarkup demoAfterScore
           eq_refl eq_refl reachable_demoAfterScore).
Defined.

Lemma pipes_stay_on_screen_witness :
  restartHidden demoMarkup = true
  /\ Forall (fun pipe => (pipe_x pipe + PIPE_WIDTH >? lit (-10))%js = true)
            (pipes demoAfterScore).
Proof.
  split; [reflexivity|].
  exact (proj1 (pipes_stay_on_screen false false 1 320 480 demoMarkup
                  demoAfterScore eq_refl reachable_demoAfterScore)).
Defined.

Lemma reduced_motion_keeps_game_untouched_witness :
  motionOverride demoReducedLater = false
  /\ state demoReducedLater = READY
  /\ bird demoReducedLater = initialBird
  /\ audioCtx demoReducedLater = None.
Proof.
  assert (Ho : motionOverride demoReducedLater = false) by reflexivity.
  pose proof (reduced_motion_keeps_game_untouched true false 1 320 480 demoMarkup
                demoReducedLater eq_refl eq_refl reachable_demoReducedLater Ho)
    as (H1 & _ & _ & _ & H5 & H6).
  split; [exact Ho|]. split; [exact H1|]. split; [exact H5 | exact H6].
Defined.

Lemma spawnPipe_gap_in_range_witness :
  canvas_height (page demoPlaying) / dpr demoPlaying == 480
  /\ exists gapY : Z,
       pipes (spawnPipe (1 # 2) demoPlaying)
       = pipes demoPlaying
         ++ [ {| pipe_x := canvas_width (page demoPlaying) / dpr demoPlaying;
                 pipe_y := inject_Z gapY + 50;
                 pipe_passed := false |} ]
       /\ (0 <= gapY <= 250)%Z.
Proof.
  assert (Hh : canvas_height (page demoPlaying) / dpr demoPlaying == inject_Z 480)
    by reflexivity.
  split; [exact Hh|].
  pose proof (spawnPipe_gap_in_range sin7 (1 # 2) demoPlaying 480
                ltac:(discriminate) ltac:(reflexivity) Hh ltac:(discriminate))
    as (gapY & Hp & Hr & _).
  exists gapY. split; [exact Hp | exact Hr].
Defined.

Lemma rotation_stays_in_range_witness :
  bird_rotation initialBird = 0
  /\ (lit (-25) * Math_PI / lit 180)%js
     <= bird_rotation (updateBird (N := QN) 1 initialBird)
  /\ bird_rotation (updateBird (N := QN) 1 initialBird)
     <= (lit 90 * Math_PI / lit 180)%js.
Proof.
  split; [reflexivity|].
  pose proof (rotation_stays_in_range sin7 1 initialBird
                ltac:(discriminate) ltac:(discriminate) ltac:(discriminate))
    as (H1 & H2 & _).
  split; [exact H1 | exact H2].
Defined.

Lemma hit_needs_pipe_at_bird_witness :
  hitsPipe (demoPipes 105) {| pipe_x := 40; pipe_y := 100; pipe_passed := false |}
  = true
  /\ -13 < 40 /\ 40 < 61.
Proof.
  assert (Hhit : hitsPipe (demoPipes 105)
                   {| pipe_x := 40; pipe_y := 100; pipe_passed := false |} = true)
    by reflexivity.
  split; [exact Hhit|].
  exact (proj1 (hit_needs_pipe_at_bird sin7 (demoPipes 105)
                  {| pipe_x := 40; pipe_y := 100; pipe_passed := false |}
                  (conj eq_refl eq_refl)) Hhit).
Defined.

Lemma spawn_timer_within_interval_witness :
  reachable demoStart demoAfterScore /\ spawnTimer demoAfterScore <= 1800.
Proof.
  split; [exact reachable_demoAfterScore|].
  exact (spawn_timer_within_interval sin7 false false 1 320 480 demoMarkup
           demoAfterScore reachable_demoAfterScore).
Defined.

Lemma autoplay_cycles_witness :
  (autoplayTicks 5 3 1 < 3)%nat /\ autoplayTicks 3 3 1 = 1%nat.
Proof.
  pose proof (autoplay_cycles 3 4 1 ltac:(lia)) as (H1 & _ & H3).
  split; [exact H1 | apply H3; lia].
Defined.

Lemma one_meteor_timeout_pending_witness :
  isPaused demoMeteors = false
  /\ exists id, pending demoMeteors = [id] /\ timerId demoMeteors = Some id.
Proof.
  split; [reflexivity|].
  assert (Hr : meteorReachable (initMeteors false 0) demoMeteors).
  { apply meteor_step; [apply meteor_start | left; reflexivity]. }
  exact (proj1 (proj2 (one_meteor_timeout_pending false 0 demoMeteors Hr)) eq_refl).
Defined.

Lemma ground_stripes_stay_left_witness :
  0 < 320 /\ 320 + 80 <= 400
  /\ List.length (drawGround 320 480 400) = S (2 * tileCount 40 320).
Proof.
  split; [reflexivity|]. split; [discriminate|].
  exact (proj1 (ground_stripes_stay_left 320 480 400
                  ltac:(reflexivity) ltac:(discriminate))).
Defined.

Lemma layers_stay_left_witness :
  0 < 320
  /\ Forall (fun x => - (320 + 80) - 1 < x /\ x <= 0) (hillXs 320 480).
Proof.
  split; [reflexivity|].
  exact (proj1 (proj2 (layers_stay_left 320 480 ltac:(reflexivity)))
           ltac:(discriminate)).
Defined.

Lemma C6_witness :
  state demoBeforeScore = PLAYING
  /\ score demoBeforeScore = 0%Z
  /\ score (outcome (update 100 0.1 demoBeforeScore)) = 1%Z
  /\ flagsExact (outcome (update 100 0.1 demoBeforeScore)).
Proof.
  assert (Hs : state (run toFirstPipe (init false false 1 320 480 demoMarkup))
               = PLAYING) by (vm_compute; reflexivity).
  assert (H0 : score demoBeforeScore = 0%Z) by (vm_compute; reflexivity).
  assert (H1 : score (outcome (update 100 0.1 demoBeforeScore)) = 1%Z)
    by (vm_compute; reflexivity).
  pose proof (C6_passed_flag sin7 false false 1 320 480 demoMarkup toFirstPipe
                100 0.1 ltac:(discriminate) ltac:(discriminate)
                ltac:(vm_compute; reflexivity)) as H.
  cbv zeta in H. specialize (H Hs).
  destruct H as (spawned & k & _ & _ & _ & _ & _ & _ & _ & _ & _ & _ & _ & H & _).
  exact (conj Hs (conj H0 (conj H1 H))).
Defined.

Lemma new_best_score_reads_back_witness :
  js_gt 7 (bestScore demoPlaying) = true
  /\ initBestScore
       (storage (page (gameOver (set_score 7 demoPlaying)))) = Int 7.
Proof.
  split; [reflexivity|].
  exact (proj2 (proj2 (proj2
           (new_best_score_reads_back (set_score 7 demoPlaying)
              ltac:(split; [discriminate | reflexivity]) eq_refl)))).
Defined.

End MoreRuns.

